(** * The /video-proxy relay of the media-catalog server (src/index.js)

    A shallow embedding of the request handler registered by
    [app.get('/video-proxy', videoProxyLimiter, (req, res) => ...)]
    (src/index.js, lines 170-219), of the built-ins it calls, and of the
    properties of the relay stated over that embedding.

    Layout:
    - [Js]        idioms of the language the handler is written in
                  (truthiness, [||], completions of a [try] block);
    - [Platform]  the built-ins the handler calls ([decodeURIComponent],
                  [encodeURIComponent], [new URL]), as an interface;
    - [Accepts]   what the framework's content negotiation answers for
                  the inbound request, as an interface;
    - [Relay]     the handler, over any [Platform] and [Accepts];
    - [Node]      an executable [Platform], for running the handler;
    - [Express]   how the framework fills [req.query.url];
    - [Browser]   a client that follows the redirects the relay sends;
    - [Scenario]  upstream origins and requests to run the handler on;
    - the properties, general ones first, then runs on [Node].

    Around the relay, the file also embeds what the page and the catalog
    routes do with the same data: [Page] (the player's choice of address
    and the escaping of text), [Api] (the listing route [/api/series],
    with the doubles it computes with in [Number]) and [Catalog] (the
    grouping loop of [loadData]), with their properties after those of
    the relay.

    Scope. The embedding starts where the handler starts: a request that
    the rate limiter turned down never reaches it. The inbound response
    holds what the handler's own calls set on it; what other middleware
    adds to every response, or does to it on the way out (the compression
    of line 24), is not tracked. One run of the handler covers the
    outbound request up to the first event it comes back with: a response,
    on which the response callback runs, an error in place of a response,
    on which the ['error'] listener runs, or no event at all. An exception
    that a callback throws, with no [try] block around it any more, is
    part of the run's outcome. How the body is streamed once the callback
    has run, and a connection lost in the middle of it, is not part of it.

    JavaScript strings are represented by [string], read as the UTF-8 bytes
    of the text. [req.query.url] is taken to be [undefined] or a string. *)

From Stdlib Require Import Ascii String NArith DecimalString.
From stdpp Require Import base option list gmap strings.

Local Open Scope string_scope.

(** ** Language-level idioms *)

Module Js.

(** The errors that the built-ins and the framework methods used by the
    handler can throw. *)
Inductive Error : Type :=
| URIError
| TypeError
| RangeError.

(** Completion of an expression evaluated inside a [try] block. *)
Inductive Completion (A : Type) : Type :=
| Normal (a : A)
| Throw (e : Error).
Arguments Normal {A} a.
Arguments Throw {A} e.

Definition bind {A B} (c : Completion A) (k : A -> Completion B) : Completion B :=
  match c with
  | Normal a => k a
  | Throw e => Throw e
  end.

(** [try { body } catch (error) { handler }] *)
Definition try_catch {A} (body : Completion A) (handler : Error -> A) : A :=
  match body with
  | Normal a => a
  | Throw e => handler e
  end.

(** ToBoolean on a string: only the empty string is falsy. *)
Definition truthy (s : string) : bool :=
  match s with
  | EmptyString => false
  | String _ _ => true
  end.

(** ToBoolean on a value that is either [undefined] or a string. *)
Definition truthy_opt (v : option string) : bool :=
  match v with
  | None => false
  | Some s => truthy s
  end.

(** ToString on such a value, as a template literal or a built-in applies it. *)
Definition to_string (v : option string) : string :=
  match v with
  | Some s => s
  | None => "undefined"
  end.

(** [v || d] for [v] either [undefined] or a string. *)
Definition or_default (v : option string) (d : string) : string :=
  match v with
  | Some s => if truthy s then s else d
  | None => d
  end.

End Js.

(** Sequencing inside a [try] block is written [x ← c; k]. *)
#[export] Instance completion_ret : MRet Js.Completion := @Js.Normal.
#[export] Instance completion_bind : MBind Js.Completion :=
  fun A B k c => Js.bind c k.

(** ** The built-ins called by the handler *)

(** The fields of a [URL] object that the handler can read. *)
Module URL.
Record t : Type := mk {
  protocol : string;   (* scheme followed by ":" *)
  username : string;
  password : string;
  hostname : string;
  port : string;       (* "" when absent or equal to the scheme's default *)
  pathname : string;
  search : string;     (* "" or "?" followed by the query *)
  hash : string        (* "" or "#" followed by the fragment *)
}.
End URL.

(** [decodeURIComponent] throws [URIError] and [new URL] throws [TypeError];
    [encodeURIComponent] cannot throw on well-formed text. *)
Module Platform.
Class t : Type := {
  decodeURIComponent : string -> Js.Completion string;
  encodeURIComponent : string -> string;
  new_URL : string -> Js.Completion URL.t
}.
End Platform.

(** ** HTTP messages *)

(** The two client modules, [require('http')] and [require('https')]. *)
Inductive Client : Type :=
| http
| https.

(** [opts.port] holds either the string [parsed.port] or a number. *)
Inductive PortValue : Type :=
| PortString (s : string)
| PortNumber (n : N).

(** The object literal [opts] of lines 179-188. *)
Module Opts.
Record t : Type := mk {
  hostname : string;
  port : PortValue;
  path : string;
  headers : gmap string string
}.
Definition set_header (k v : string) (o : t) : t :=
  mk (hostname o) (port o) (path o) (<[k := v]> (headers o)).
End Opts.

(** An outbound request is identified with the call
    [client.request(opts, ...)] that makes it: which client module, and the
    options. [opts] names no method, and the client modules then use GET. *)
Module ClientRequest.
Record t : Type := mk {
  client : Client;
  method : string;
  opts : Opts.t
}.
End ClientRequest.

(** The client modules turn down, with a [TypeError], a path that holds a
    character outside U+0021..U+00FF: in UTF-8, a byte up to 0x20 or a
    lead byte from 0xC4 on. An empty path is not looked at. *)
Fixpoint unescaped_characters (path : string) : bool :=
  match path with
  | EmptyString => false
  | String c rest =>
      (N_of_ascii c <=? 0x20)%N || (0xC4 <=? N_of_ascii c)%N
      || unescaped_characters rest
  end.

(** A path the client modules accept. *)
Definition sendable (path : string) : Prop :=
  unescaped_characters path = false.

Definition request (client : Client) (opts : Opts.t) : Js.Completion ClientRequest.t :=
  if unescaped_characters (Opts.path opts) then Js.Throw Js.TypeError
  else Js.Normal (ClientRequest.mk client "GET" opts).

(** The upstream response [proxyRes]: header names are lower-cased by the
    client module. *)
Module IncomingMessage.
Record t : Type := mk {
  statusCode : nat;
  headers : gmap string string;
  payload : string
}.
End IncomingMessage.

(** Failures reported through the ['error'] event of [proxyReq]. *)
Inductive SocketError : Type :=
| ECONNREFUSED
| ECONNRESET
| ETIMEDOUT
| ENOTFOUND
| EPROTO
| HPE_INVALID (detail : string).

(** What an outbound request comes back with: the response callback runs
    on the upstream's response, or the ['error'] listener runs in place of
    a response, or neither ever does. The handler sets no timeout on
    [proxyReq], so an origin that takes the request and stays silent
    produces no event at all. [OnResponse] stands for a response whose body
    then arrives whole; a connection lost after the response callback ran
    is not among the events. *)
Inductive UpstreamEvent : Type :=
| OnResponse (proxyRes : IncomingMessage.t)
| OnError (e : SocketError)
| Silence.

Definition Upstream : Type := ClientRequest.t -> UpstreamEvent.

(** The part of the inbound request the handler reads: [req.query.url] and
    [req.headers.range], each [undefined] or a string. *)
Module Request.
Record t : Type := mk {
  query_url : option string;
  headers_range : option string
}.
End Request.

(** What has been written to the inbound response. *)
Inductive Body : Type :=
| Open                               (* nothing sent yet *)
| Empty                              (* [res.end()] with no data *)
| RedirectNotice (address : string)  (* [ServerResponse.notice], for [address] *)
| Stream (payload : string).         (* [proxyRes.pipe(res)] *)

(** What [req.accepts(['text', 'html'])] answers for the inbound request:
    the type its [Accept] header prefers, [text] when it has none or takes
    anything, and nothing when it takes neither. [res.redirect] asks it,
    through [res.format], to choose the form of its notice. *)
Module Accepts.
Inductive Format : Type :=
| text
| html.
Class t : Type := accepts : option Format.
End Accepts.

Module ServerResponse.
Record t : Type := mk {
  statusCode : nat;
  headers : gmap string string;
  body : Body
}.

(** A response the handler has not touched yet: status 200 until told
    otherwise. [headers] holds what the handler's own calls set, those of
    [res.redirect] included. *)
Definition fresh : t := mk 200 ∅ Open.

(** [res.status(code)]. A code outside 100..999 ends in a [RangeError]:
    [res.status] throws it in express 5, and in express 4 the [writeHead]
    behind the first write of the body does. *)
Definition status (code : nat) (res : t) : Js.Completion t :=
  if (100 <=? code)%nat && (code <=? 999)%nat
  then Js.Normal (mk code (headers res) (body res))
  else Js.Throw Js.RangeError.

Definition setHeader (name value : string) (res : t) : t :=
  mk (statusCode res) (<[name := value]> (headers res)) (body res).

Definition end_ (res : t) : t :=
  mk (statusCode res) (headers res) Empty.

(** The [escape-html] of [res.redirect]. *)
Fixpoint escapeHtml (s : string) : string :=
  match s with
  | EmptyString => ""
  | String c rest =>
      (if Ascii.eqb c "034" then "&quot;"
       else if Ascii.eqb c "&" then "&amp;"
       else if Ascii.eqb c "'" then "&#39;"
       else if Ascii.eqb c "<" then "&lt;"
       else if Ascii.eqb c ">" then "&gt;"
       else String c "") +:+ escapeHtml rest
  end.

(** The notice [res.redirect] writes for status 302, in the form the
    request accepts (express 4.21 and 5; the HTML of earlier versions also
    wraps the address in a link). *)
Definition notice (format : option Accepts.Format) (address : string) : string :=
  match format with
  | Some Accepts.text => "Found. Redirecting to " +:+ address
  | Some Accepts.html => "<p>Found. Redirecting to " +:+ escapeHtml address +:+ "</p>"
  | None => ""
  end.

(** [res.redirect(url)]: [Location]; through [res.format], [Vary] and,
    when the request accepts one of the two forms, [Content-Type]; then
    status 302, the length of the notice, and the notice. The handler
    calls it on a response it has set no header on. *)
Definition redirect `{Accepts.t} (url : string) (res : t) : t :=
  let headers := <["Location" := url]> (headers res) in
  let headers := <["Vary" := "Accept"]> headers in
  let headers :=
    match Accepts.accepts with
    | Some Accepts.text => <["Content-Type" := "text/plain; charset=utf-8"]> headers
    | Some Accepts.html => <["Content-Type" := "text/html; charset=utf-8"]> headers
    | None => headers
    end in
  let headers :=
    <["Content-Length" :=
        NilZero.string_of_uint
          (N.to_uint (N.of_nat (String.length (notice Accepts.accepts url))))]> headers in
  mk 302 headers (RedirectNotice url).

Definition pipe (proxyRes : IncomingMessage.t) (res : t) : t :=
  mk (statusCode res) (headers res) (Stream (IncomingMessage.payload proxyRes)).
End ServerResponse.

(** One run of the handler: the outbound requests it issued, in order; the
    inbound response as it stands in the end, untouched when nothing was
    ever written to it; and the exception, if any, that a callback threw
    with nothing to catch it, which ends the process. *)
Module Exchange.
Record t : Type := mk {
  outbound : list ClientRequest.t;
  response : ServerResponse.t;
  uncaught : option Js.Error
}.
End Exchange.

(** ** The handler *)

Module Relay.
Import Platform ServerResponse.

Section handler.
Context `{Platform.t} `{Accepts.t}.

(** [[301, 302, 307, 308].includes(code)] *)
Definition includes (codes : list nat) (code : nat) : bool :=
  bool_decide (code ∈ codes).

(** The response callback, lines 194-211. *)
Definition on_response (proxyRes : IncomingMessage.t) (res : ServerResponse.t)
  : Js.Completion ServerResponse.t :=
  let headers := IncomingMessage.headers proxyRes in
  if includes [301; 302; 307; 308] (IncomingMessage.statusCode proxyRes)
     && Js.truthy_opt (headers !! "location")
  then
    mret (redirect ("/video-proxy?url=" +:+
                    encodeURIComponent (Js.to_string (headers !! "location"))) res)
  else
    res ← status (IncomingMessage.statusCode proxyRes) res;
    let res := setHeader "Content-Type"
                 (Js.or_default (headers !! "content-type") "video/mp4") res in
    let res := setHeader "Accept-Ranges" "bytes" res in
    let res := if Js.truthy_opt (headers !! "content-length")
               then setHeader "Content-Length"
                      (Js.to_string (headers !! "content-length")) res
               else res in
    let res := if Js.truthy_opt (headers !! "content-range")
               then setHeader "Content-Range"
                      (Js.to_string (headers !! "content-range")) res
               else res in
    mret (pipe proxyRes res).

(** [res.status(code).end()], as the early return, the ['error'] listener
    and the [catch] clause call it. *)
Definition end_with (code : nat) (res : ServerResponse.t)
  : Js.Completion ServerResponse.t :=
  res ← status code res;
  mret (end_ res).

(** The ['error'] listener, line 213. *)
Definition on_error (res : ServerResponse.t) : Js.Completion ServerResponse.t :=
  end_with 502 res.

(** [const client = ...], line 177. *)
Definition client_for (parsed : URL.t) : Client :=
  if String.eqb (URL.protocol parsed) "https:" then https else http.

(** [opts] as it stands after line 192. *)
Definition options (parsed : URL.t) (req : Request.t) : Opts.t :=
  let opts :=
    Opts.mk
      (URL.hostname parsed)
      (if Js.truthy (URL.port parsed) then PortString (URL.port parsed)
       else PortNumber (if String.eqb (URL.protocol parsed) "https:" then 443 else 80)%N)
      (URL.pathname parsed +:+ URL.search parsed)
      (<["Accept-Encoding" := "identity"]>
         (<["Accept" := "*/*"]> (<["User-Agent" := "Mozilla/5.0"]> ∅))) in
  if Js.truthy_opt (Request.headers_range req)
  then Opts.set_header "Range" (Js.to_string (Request.headers_range req)) opts
  else opts.

(** How a run ends once [sent] has gone out and [outcome] is what the
    code that answers completed with. The two callbacks are called by the
    event loop, after the [try] block has been left: what they throw is
    caught by nothing, and nothing is written to the response, which is
    kept here as it was before the call. *)
Definition settle (sent : list ClientRequest.t) (res : ServerResponse.t)
    (outcome : Js.Completion ServerResponse.t) : Exchange.t :=
  match outcome with
  | Js.Normal answered => Exchange.mk sent answered None
  | Js.Throw e => Exchange.mk sent res (Some e)
  end.

(** What becomes of the run once [proxyReq] is on its way: the callback
    or the listener answers, or nobody does. *)
Definition outcome (upstream : Upstream) (proxyReq : ClientRequest.t)
    (res : ServerResponse.t) : Exchange.t :=
  match upstream proxyReq with
  | OnResponse proxyRes => settle [proxyReq] res (on_response proxyRes res)
  | OnError _ => settle [proxyReq] res (on_error res)
  | Silence => Exchange.mk [proxyReq] res None
  end.

(** The body of the [try] block, lines 175-214. What the block itself
    throws is the [Throw] of its completion. *)
Definition try_block (upstream : Upstream) (req : Request.t) (res : ServerResponse.t)
  : Js.Completion Exchange.t :=
  decodedUrl ← decodeURIComponent (Js.to_string (Request.query_url req));
  parsed ← new_URL decodedUrl;
  let client := client_for parsed in
  let opts := options parsed req in
  proxyReq ← request client opts;
  mret (outcome upstream proxyReq res).

(** The handler, lines 170-219. *)
Definition handler (upstream : Upstream) (req : Request.t) : Exchange.t :=
  let res := ServerResponse.fresh in
  let url := Request.query_url req in
  if negb (Js.truthy_opt url) then settle [] res (end_with 400 res)
  else
    Js.try_catch (try_block upstream req res)
      (fun error => settle [] res (end_with 400 res)).

(** *** Vocabulary for the statements below *)

(** The URL object the [try] block obtains, or what it throws on the way. *)
Definition target (req : Request.t) : Js.Completion URL.t :=
  decodedUrl ← decodeURIComponent (Js.to_string (Request.query_url req));
  new_URL decodedUrl.

(** [req] carries a [url] parameter that decodes and parses to [parsed]. *)
Definition resolves (req : Request.t) (parsed : URL.t) : Prop :=
  Js.truthy_opt (Request.query_url req) = true ∧ target req = Js.Normal parsed.

(** The handler, given [req], sends [proxyReq] for the URL [parsed]. *)
Definition sends (req : Request.t) (parsed : URL.t) (proxyReq : ClientRequest.t) : Prop :=
  resolves req parsed
  ∧ request (client_for parsed) (options parsed req) = Js.Normal proxyReq.

(** The upstream response is one the callback treats as a redirect. *)
Definition redirects (proxyRes : IncomingMessage.t) : Prop :=
  IncomingMessage.statusCode proxyRes ∈ [301; 302; 307; 308]
  ∧ ∃ location, IncomingMessage.headers proxyRes !! "location" = Some location
                ∧ location ≠ "".


(** The upstream response is one [res.status] takes the status of. *)
Definition relayable (proxyRes : IncomingMessage.t) : Prop :=
  (100 ≤ IncomingMessage.statusCode proxyRes ≤ 999)%nat.

(** Status 400, no header, no body, nothing sent upstream. *)
Definition bad_request : Exchange.t :=
  Exchange.mk [] (ServerResponse.mk 400 ∅ Empty) None.

(** Status 502, no header, no body. *)
Definition bad_gateway : ServerResponse.t :=
  ServerResponse.mk 502 ∅ Empty.

End handler.
End Relay.

(** ** An executable platform

    [decodeURIComponent] and [encodeURIComponent] follow ECMA-262 (Decode
    and Encode with the empty reserved set and the uriUnreserved set);
    [new_URL] follows the basic URL parser of the WHATWG URL Standard as
    Node 22 runs it, without a base URL. It is there to run the handler
    on, and covers the hosts of those runs: names in ASCII and IPv4
    addresses. On an IPv6 literal, and on a name that needs IDNA
    processing, it throws where Node goes on (see [host_special]). What
    is proved below of every URL that parses is stated over an arbitrary
    [Platform.t] and does not depend on it. *)

Module Node.

Local Open Scope N_scope.

(** *** Characters *)

Definition code (c : ascii) : N := N_of_ascii c.

Definition between (lo hi : N) (c : ascii) : bool :=
  (lo <=? code c) && (code c <=? hi).

Definition is_digit : ascii -> bool := between 48 57.
Definition is_upper : ascii -> bool := between 65 90.
Definition is_lower : ascii -> bool := between 97 122.
Definition is_alpha (c : ascii) : bool := is_upper c || is_lower c.
Definition is_alnum (c : ascii) : bool := is_alpha c || is_digit c.

Definition to_lower (c : ascii) : ascii :=
  if is_upper c then ascii_of_N (code c + 32) else c.

(** [c] occurs in [set] *)
Fixpoint one_of (set : string) (c : ascii) : bool :=
  match set with
  | EmptyString => false
  | String d set' => Ascii.eqb c d || one_of set' c
  end.

Definition hex_value (c : ascii) : option N :=
  if is_digit c then Some (code c - 48)
  else if between 65 70 c then Some (code c - 55)
  else if between 97 102 c then Some (code c - 87)
  else None.

(** Upper-case hexadecimal digit of a value below 16. *)
Definition hex_digit (n : N) : ascii :=
  if n <? 10 then ascii_of_N (48 + n) else ascii_of_N (55 + n).

(** ["%XY"] for the byte [c] *)
Definition percent (c : ascii) : string :=
  String "%" (String (hex_digit (code c / 16)) (String (hex_digit (code c mod 16)) "")).

(** *** decodeURIComponent *)

(** The input cut into literal characters and escaped bytes. *)
Inductive Token : Type :=
| Lit (c : ascii)
| Esc (b : N).

Fixpoint unescape (s : string) : option (list Token) :=
  match s with
  | EmptyString => Some []
  | String "%" (String h (String l rest)) =>
      match hex_value h, hex_value l with
      | Some x, Some y => cons (Esc (16 * x + y)) <$> unescape rest
      | _, _ => None
      end
  | String "%" _ => None
  | String c rest => cons (Lit c) <$> unescape rest
  end.

(** Position inside an escaped UTF-8 sequence: [More k lo hi] expects [k]
    more escaped continuation bytes, the next one within [lo..hi]. *)
Inductive Utf8 : Type :=
| Boundary
| More (k : nat) (lo hi : N).

(** The well-formed byte sequences of the Unicode Standard, by first byte. *)
Definition lead (b : N) : option Utf8 :=
  if b <? 0x80 then Some Boundary
  else if (0xC2 <=? b) && (b <=? 0xDF) then Some (More 1 0x80 0xBF)
  else if b =? 0xE0 then Some (More 2 0xA0 0xBF)
  else if b =? 0xED then Some (More 2 0x80 0x9F)
  else if (0xE1 <=? b) && (b <=? 0xEF) then Some (More 2 0x80 0xBF)
  else if b =? 0xF0 then Some (More 3 0x90 0xBF)
  else if (0xF1 <=? b) && (b <=? 0xF3) then Some (More 3 0x80 0xBF)
  else if b =? 0xF4 then Some (More 3 0x80 0x8F)
  else None.

Definition after_continuation (k : nat) : Utf8 :=
  match k with
  | S (S k') => More (S k') 0x80 0xBF
  | _ => Boundary
  end.

Fixpoint assemble (st : Utf8) (ts : list Token) : option string :=
  match ts, st with
  | [], Boundary => Some ""%string
  | [], More _ _ _ => None
  | Lit c :: ts', Boundary => String c <$> assemble Boundary ts'
  | Lit _ :: _, More _ _ _ => None
  | Esc b :: ts', Boundary =>
      match lead b with
      | Some st' => String (ascii_of_N b) <$> assemble st' ts'
      | None => None
      end
  | Esc b :: ts', More k lo hi =>
      if (lo <=? b) && (b <=? hi)
      then String (ascii_of_N b) <$> assemble (after_continuation k) ts'
      else None
  end.

Definition decodeURIComponent (s : string) : Js.Completion string :=
  match unescape s ≫= assemble Boundary with
  | Some r => Js.Normal r
  | None => Js.Throw Js.URIError
  end.

(** *** encodeURIComponent *)

Definition unreserved (c : ascii) : bool :=
  is_alnum c || one_of "-_.!~*'()" c.

Fixpoint encodeURIComponent (s : string) : string :=
  match s with
  | EmptyString => ""%string
  | String c rest =>
      (if unreserved c then String c "" else percent c) +:+ encodeURIComponent rest
  end.

(** The token an encoded character is read back as. *)
Definition token (c : ascii) : Token :=
  if unreserved c then Lit c else Esc (code c).

(** *** Strings *)

Fixpoint smap (f : ascii -> ascii) (s : string) : string :=
  match s with
  | EmptyString => ""%string
  | String c rest => String (f c) (smap f rest)
  end.

Fixpoint all (p : ascii -> bool) (s : string) : bool :=
  match s with
  | EmptyString => true
  | String c rest => p c && all p rest
  end.

Definition any (p : ascii -> bool) (s : string) : bool :=
  negb (all (fun c => negb (p c)) s).

Definition is_ascii (s : string) : Prop :=
  all (fun c => code c <? 128) s = true.

(** [s] without the characters that satisfy [p] *)
Fixpoint without (p : ascii -> bool) (s : string) : string :=
  match s with
  | EmptyString => ""%string
  | String c rest => if p c then without p rest else String c (without p rest)
  end.

Fixpoint drop_while (p : ascii -> bool) (s : string) : string :=
  match s with
  | EmptyString => ""%string
  | String c rest => if p c then drop_while p rest else s
  end.

Definition trim (p : ascii -> bool) (s : string) : string :=
  String.rev (drop_while p (String.rev (drop_while p s))).

(** The longest prefix free of [p], and what follows it. *)
Fixpoint break (p : ascii -> bool) (s : string) : string * string :=
  match s with
  | EmptyString => (""%string, ""%string)
  | String c rest =>
      if p c then (""%string, s)
      else let '(a, b) := break p rest in (String c a, b)
  end.

(** The pieces of [s] between the characters that satisfy [p]; never empty. *)
Fixpoint split (p : ascii -> bool) (s : string) : list string :=
  match s with
  | EmptyString => [""%string]
  | String c rest =>
      if p c then ""%string :: split p rest
      else match split p rest with
           | piece :: pieces => String c piece :: pieces
           | [] => [String c ""]
           end
  end.

(** Around the first occurrence of [c]. *)
Fixpoint lsplit (c : ascii) (s : string) : option (string * string) :=
  match s with
  | EmptyString => None
  | String d rest =>
      if Ascii.eqb d c then Some (""%string, rest)
      else (fun '(a, b) => (String d a, b)) <$> lsplit c rest
  end.

(** Around the last occurrence of [c]. *)
Fixpoint rsplit (c : ascii) (s : string) : option (string * string) :=
  match s with
  | EmptyString => None
  | String d rest =>
      match rsplit c rest with
      | Some (a, b) => Some (String d a, b)
      | None => if Ascii.eqb d c then Some (""%string, rest) else None
      end
  end.

Definition join (sep : string) (pieces : list string) : string :=
  match pieces with
  | [] => ""%string
  | piece :: pieces' => fold_left (fun acc x => acc +:+ sep +:+ x) pieces' piece
  end.

(** Value of a digit string in the given radix. *)
Definition number (radix : N) (s : string) : option N :=
  let digit c :=
    match hex_value c with
    | Some d => if d <? radix then Some d else None
    | None => None
    end in
  (fix go (acc : N) (s : string) : option N :=
     match s with
     | EmptyString => Some acc
     | String c rest =>
         match digit c with
         | Some d => go (radix * acc + d) rest
         | None => None
         end
     end) 0 s.

Definition decimal (n : N) : string := NilZero.string_of_uint (N.to_uint n).

(** *** Percent-encode sets of the URL Standard *)

Definition percent_encode (set : ascii -> bool) (s : string) : string :=
  (fix go (s : string) : string :=
     match s with
     | EmptyString => ""%string
     | String c rest => (if set c then percent c else String c "") +:+ go rest
     end) s.

Definition c0_control_set (c : ascii) : bool :=
  (code c <=? 0x1F) || (0x7E <? code c).

Definition fragment_set (c : ascii) : bool :=
  c0_control_set c || one_of (String "034" " <>`") c.

Definition query_set (c : ascii) : bool :=
  c0_control_set c || one_of (String "034" " #<>") c.

Definition special_query_set (c : ascii) : bool :=
  query_set c || one_of "'" c.

(** In a path, [^] is left as it is. *)
Definition path_set (c : ascii) : bool :=
  query_set c || one_of "?`{}" c.

Definition userinfo_set (c : ascii) : bool :=
  path_set c || one_of "/:;=@[\]^|" c.

(** *** Schemes *)

Definition default_port (scheme : string) : option N :=
  if String.eqb scheme "ftp" then Some 21
  else if String.eqb scheme "http" then Some 80
  else if String.eqb scheme "https" then Some 443
  else if String.eqb scheme "ws" then Some 80
  else if String.eqb scheme "wss" then Some 443
  else None.

Definition is_special (scheme : string) : bool :=
  String.eqb scheme "file" || bool_decide (is_Some (default_port scheme)).

(** *** Hosts *)

(** The percent-decoding applied to a domain: escapes that are not two
    hexadecimal digits stay as they are. *)
Fixpoint percent_decode (s : string) : string :=
  match s with
  | EmptyString => ""%string
  | String "%" (String h (String l rest) as tail) =>
      match hex_value h, hex_value l with
      | Some x, Some y => String (ascii_of_N (16 * x + y)) (percent_decode rest)
      | _, _ => String "%" (percent_decode tail)
      end
  | String c rest => String c (percent_decode rest)
  end.

Definition forbidden_host (c : ascii) : bool :=
  one_of (String "000" (String "009" (String "010" (String "013" " #/:<>?@[\]^|")))) c.

Definition forbidden_domain (c : ascii) : bool :=
  forbidden_host c || (code c <=? 0x1F) || one_of (String "%" (String "127" "")) c.

(** One part of a dotted IPv4 address: hexadecimal after [0x], octal after
    a leading [0], decimal otherwise. *)
Definition ipv4_number (part : string) : option N :=
  match part with
  | EmptyString => None
  | String "0" (String x rest as tail) =>
      if one_of "xX" x then number 16 rest else number 8 tail
  | _ => number 10 part
  end.

Definition ipv4_parts (host : string) : list string :=
  let parts := split (Ascii.eqb ".") host in
  match reverse parts with
  | EmptyString :: ((_ :: _) as others) => reverse others
  | _ => parts
  end.

Definition ends_in_number (host : string) : bool :=
  match reverse (split (Ascii.eqb ".") host) with
  | [EmptyString] => false
  | EmptyString :: final :: _ | final :: _ =>
      (negb (String.eqb final "") && all is_digit final)
      || bool_decide (is_Some (ipv4_number final))
  | [] => false
  end.

Definition ipv4 (host : string) : option string :=
  let parts := ipv4_parts host in
  let size := N.of_nat (length parts) in
  if 4 <? size then None
  else
    numbers ← mapM ipv4_number parts;
    match reverse numbers with
    | [] => None
    | final :: others =>
        if bool_decide (Exists (fun n => 255 < n) others) then None
        else if 256 ^ (5 - size) <=? final then None
        else
          let address :=
            fold_left N.add
              (imap (fun i n => n * 256 ^ (3 - N.of_nat i)) (reverse others)) final in
          Some (join "." (map (fun i => decimal ((address / 256 ^ i) mod 256))
                            [3; 2; 1; 0]))
    end.

(** The host parser for special schemes, on what it covers here: a domain
    that is ASCII once percent-decoded and has no [xn--] label, or an IPv4
    address in any of its spellings. IPv6 literals and names that need IDNA
    processing are turned down, where the Standard goes on. *)
Definition host_special (input : string) : option string :=
  let domain := percent_decode input in
  let ascii := smap to_lower domain in
  if String.prefix "[" input then None
  else if any (fun c => 0x7F <? code c) domain then None
  else if bool_decide (Exists (fun label => String.prefix "xn--" label = true)
                         (split (Ascii.eqb ".") ascii)) then None
  else if String.eqb ascii "" then None
  else if any forbidden_domain ascii then None
  else if ends_in_number ascii then ipv4 ascii
  else Some ascii.

(** The opaque-host parser for the other schemes (IPv6 literals as above). *)
Definition host_opaque (input : string) : option string :=
  if String.prefix "[" input then None
  else if any forbidden_host input then None
  else Some (percent_encode c0_control_set input).

(** *** Authority: [user:password@host:port] *)

Definition parse_port (scheme digits : string) : option string :=
  if negb (all is_digit digits) then None
  else if String.eqb digits "" then Some ""%string
  else
    n ← number 10 digits;
    if 65535 <? n then None
    else if bool_decide (default_port scheme = Some n) then Some ""%string
    else Some (decimal n).

Record Authority : Type := {
  userinfo : string * string;
  host : string;
  port : string
}.

Definition parse_authority (scheme authority : string) : option Authority :=
  let '(credentials, hostport) :=
    match rsplit "@" authority with
    | Some (c, hp) => (Some c, hp)
    | None => (None, authority)
    end in
  let '(name, digits) :=
    match lsplit ":" hostport with
    | Some (n, d) => (n, Some d)
    | None => (hostport, None)
    end in
  if bool_decide (is_Some credentials) && String.eqb hostport "" then None
  else if bool_decide (is_Some digits) && String.eqb name "" then None
  else if is_special scheme && String.eqb name "" then None
  else
    h ← (if is_special scheme then host_special name else host_opaque name);
    p ← parse_port scheme (default ""%string digits);
    let '(user, pass) :=
      match credentials with
      | Some c => default (c, ""%string) (lsplit ":" c)
      | None => (""%string, ""%string)
      end in
    Some {| userinfo := (percent_encode userinfo_set user, percent_encode userinfo_set pass);
            host := h; port := p |}.

(** *** Paths *)

Definition is_slash (special : bool) (c : ascii) : bool :=
  Ascii.eqb c "/" || (special && Ascii.eqb c "\").

Definition single_dot (segment : string) : bool :=
  bool_decide (smap to_lower segment ∈ ["."; "%2e"]%string).

Definition double_dot (segment : string) : bool :=
  bool_decide (smap to_lower segment ∈ [".."; ".%2e"; "%2e."; "%2e%2e"]%string).

(** Two characters, a letter and then [:] or [|]. *)
Definition windows_drive_letter (segment : string) : bool :=
  match segment with
  | String a (String b EmptyString) => is_alpha a && one_of ":|" b
  | _ => false
  end.

Definition normalized_drive_letter (segment : string) : bool :=
  match segment with
  | String a (String ":" EmptyString) => is_alpha a
  | _ => false
  end.

(** The path is kept with its last segment first. *)
Definition shorten (file : bool) (path : list string) : list string :=
  match path with
  | [only] => if file && normalized_drive_letter only then path else []
  | _ => tail path
  end.

Definition push (file : bool) (segment : string) (path : list string) : list string :=
  match path, segment with
  | [], String a (String _ EmptyString) =>
      if file && windows_drive_letter segment then [String a ":"] else [segment]
  | _, _ => segment :: path
  end.

(** The path state run over the pieces between slashes. A final [..]
    leaves a trailing slash, except where the scheme is not special and
    there was no segment to drop: the path then stays empty. *)
Fixpoint walk (special file : bool) (pieces : list string) (path : list string)
  : list string :=
  match pieces with
  | [] => path
  | [final] =>
      if double_dot final then
        if special || negb (bool_decide (path = [])) then ""%string :: shorten file path
        else []
      else if single_dot final then ""%string :: path
      else push file (percent_encode path_set final) path
  | piece :: pieces' =>
      walk special file pieces'
        (if double_dot piece then shorten file path
         else if single_dot piece then path
         else push file (percent_encode path_set piece) path)
  end.

Definition serialize_path (path : list string) : string :=
  fold_right (fun segment out => "/" +:+ segment +:+ out)%string ""%string (reverse path).

(** From the path start state on: [text] is empty or begins with a slash. *)
Definition path_from_start (special file : bool) (text : string) : list string :=
  match text with
  | EmptyString => if special then walk special file [""%string] [] else []
  | String _ rest => walk special file (split (is_slash special) rest) []
  end.

(** From the path state on: [text] begins the first segment. *)
Definition path_from (special file : bool) (text : string) : list string :=
  walk special file (split (is_slash special) text) [].

(** *** The parser *)

(** Scheme, and what follows the colon. *)
Definition parse_scheme (input : string) : option (string * string) :=
  match input with
  | String c _ =>
      if is_alpha c then
        match break (fun c => negb (is_alnum c || one_of "+-." c)) input with
        | (scheme, String ":" rest) => Some (smap to_lower scheme, rest)
        | _ => None
        end
      else None
  | EmptyString => None
  end.

(** Host, port, user name, password and path of what lies between the
    scheme and the query. *)
Definition parse_hierarchy (scheme body : string)
  : option (Authority * string) :=
  let no_authority path :=
    Some ({| userinfo := (""%string, ""%string); host := ""%string; port := ""%string |},
          serialize_path path) in
  let with_authority special text :=
    let '(authority, path) := break (is_slash special) text in
    a ← parse_authority scheme authority;
    Some (a, serialize_path (path_from_start special false path)) in
  if String.eqb scheme "file" then
    match body with
    | String c1 (String c2 text) =>
        if is_slash true c1 && is_slash true c2 then
          let '(name, path) := break (is_slash true) text in
          if windows_drive_letter name then no_authority (path_from true true text)
          else if String.eqb name "" then no_authority (path_from_start true true path)
          else
            h ← host_special name;
            Some ({| userinfo := (""%string, ""%string);
                     host := if String.eqb h "localhost" then ""%string else h;
                     port := ""%string |},
                  serialize_path (path_from_start true true path))
        else if is_slash true c1 then no_authority (path_from true true (String c2 text))
        else no_authority (path_from true true body)
    | String c1 EmptyString =>
        if is_slash true c1 then no_authority (path_from true true ""%string)
        else no_authority (path_from true true body)
    | EmptyString => no_authority (path_from true true ""%string)
    end
  else if is_special scheme then
    with_authority true (drop_while (is_slash true) body)
  else
    match body with
    | String "/" (String "/" text) => with_authority false text
    | String "/" text => no_authority (path_from false false text)
    | _ => Some ({| userinfo := (""%string, ""%string); host := ""%string; port := ""%string |},
                 percent_encode c0_control_set body)
    end.

Definition new_URL (input : string) : Js.Completion URL.t :=
  let input :=
    without (one_of (String "009" (String "010" (String "013" ""))))
      (trim (fun c => code c <=? 0x20) input) in
  let parsed :=
    '(scheme, rest) ← parse_scheme input;
    let '(rest, fragment) :=
      match lsplit "#" rest with
      | Some (r, f) => (r, f)
      | None => (rest, ""%string)
      end in
    let '(body, query) :=
      match lsplit "?" rest with
      | Some (b, q) => (b, q)
      | None => (rest, ""%string)
      end in
    '(a, path) ← parse_hierarchy scheme body;
    let query :=
      percent_encode (if is_special scheme then special_query_set else query_set) query in
    let fragment := percent_encode fragment_set fragment in
    Some (URL.mk (scheme +:+ ":") (userinfo a).1 (userinfo a).2 (host a) (port a) path
            (if String.eqb query "" then ""%string else "?" +:+ query)
            (if String.eqb fragment "" then ""%string else "#" +:+ fragment)) in
  match parsed with
  | Some url => Js.Normal url
  | None => Js.Throw Js.TypeError
  end.

#[export] Instance platform : Platform.t := {|
  Platform.decodeURIComponent := decodeURIComponent;
  Platform.encodeURIComponent := encodeURIComponent;
  Platform.new_URL := new_URL
|}.

End Node.

(** ** The framework's query parser

    [req.query.url] is not the text on the wire: the query parser has
    already turned [+] into a space and percent-decoded the value, keeping
    the text as it is when it does not decode. *)

Module Express.
Section query.
Context `{Platform.t}.

Definition decode (str : string) : string :=
  let strWithoutPlus :=
    Node.smap (fun c => if Ascii.eqb c "+" then " "%char else c) str in
  Js.try_catch (Platform.decodeURIComponent strWithoutPlus) (fun e => strWithoutPlus).

(** The request the handler sees for [GET /video-proxy?url=<raw>], or for
    [GET /video-proxy] when [raw] is [None], with the given [Range] header. *)
Definition get_video_proxy (raw range : option string) : Request.t :=
  Request.mk (decode <$> raw) range.

End query.
End Express.

(** ** A client that follows the relay's redirects *)

Module Browser.
Section follow.
Context `{Platform.t} `{Accepts.t}.

Fixpoint strip_prefix (prefix s : string) : option string :=
  match prefix, s with
  | EmptyString, _ => Some s
  | String a prefix', String b s' =>
      if Ascii.eqb a b then strip_prefix prefix' s' else None
  | String _ _, EmptyString => None
  end.

(** The raw [url] parameter of the address a redirect points back to. *)
Definition redirected_to (res : ServerResponse.t) : option string :=
  if bool_decide (ServerResponse.statusCode res = 302)
  then location ← ServerResponse.headers res !! "Location";
       strip_prefix "/video-proxy?url=" location
  else None.

(** The exchange the client ends on when it follows at most [hops]
    redirects, starting from [GET /video-proxy?url=<raw>]. *)
Fixpoint follow (hops : nat) (upstream : Upstream) (raw : string) (range : option string)
  : Exchange.t :=
  let exchange := Relay.handler upstream (Express.get_video_proxy (Some raw) range) in
  match hops, redirected_to (Exchange.response exchange) with
  | S hops', Some raw' => follow hops' upstream raw' range
  | _, _ => exchange
  end.

End follow.
End Browser.

(** ** Scenarios

    Upstream origins and inbound requests on which the handler is run
    below, on the [Node] platform. *)

Module Scenario.
Import Node.

(** The inbound requests carry no [Accept] header, or [*/*] as a media
    element sends it: the notice of a redirect is plain text. *)
#[export] Instance any_type : Accepts.t := Some Accepts.text.

(** Origins by host name; any other host does not resolve. *)
Definition origins (table : gmap string UpstreamEvent) : Upstream :=
  fun proxyReq =>
    default (OnError ENOTFOUND)
      (table !! Opts.hostname (ClientRequest.opts proxyReq)).

Definition respond (code : nat) (headers : list (string * string)) (payload : string)
  : UpstreamEvent :=
  OnResponse (IncomingMessage.mk code (list_to_map headers) payload).

(** [GET /video-proxy?url=<target, percent-encoded once>], as the page's
    script and the redirect of line 196 build it. *)
Definition play (target : string) (range : option string) : Request.t :=
  Express.get_video_proxy (Some (encodeURIComponent target)) range.

(** [a.example] redirects to [b.example], which has the content. *)
Definition moved : Upstream :=
  origins (list_to_map
    [("a.example", respond 302 [("location", "http://b.example/real.mp4")] "");
     ("b.example", respond 200 [("content-type", "video/webm");
                                ("content-length", "7")] "content")]).


(** An origin that answers a range request. *)
Definition ranged : Upstream :=
  origins (list_to_map
    [("media.example", respond 206 [("content-type", "video/webm");
                                    ("content-length", "100");
                                    ("content-range", "bytes 100-199/1000")]
                         "one hundred bytes")]).

(** An origin that sends [Content-Type] and [Content-Range] with empty
    values. *)
Definition blank : Upstream :=
  origins (list_to_map
    [("media.example", respond 206 [("content-type", "");
                                    ("content-range", "")] "bytes")]).

(** Every host answers 200, whatever the client module asks it. *)
Definition anywhere : Upstream :=
  fun proxyReq => respond 200 [("content-type", "text/plain")] "served".

(** No host accepts the connection. *)
Definition refused : Upstream :=
  fun proxyReq => OnError ECONNREFUSED.

(** Every host takes the request and never answers. *)
Definition silent : Upstream :=
  fun proxyReq => Silence.

(** [odd.example] answers with the status line [HTTP/1.1 099 Odd]. *)
Definition odd : Upstream :=
  origins (list_to_map [("odd.example", respond 99 [] "")]).

(** Parsed targets, and requests and responses, that the statements
    below name. *)

(** A GET on port 80 with the three fixed headers and no [Range]. *)
Definition get (client : Client) (hostname path : string) : ClientRequest.t :=
  ClientRequest.mk client "GET"
    (Opts.mk hostname (PortNumber 80) path
       (list_to_map [("User-Agent", "Mozilla/5.0"); ("Accept", "*/*");
                     ("Accept-Encoding", "identity")])).

Definition at_a_example : URL.t :=
  URL.mk "http:" "" "" "a.example" "" "/video.mp4" "" "".

(** What goes out for [http://a.example/video.mp4] without a [Range]. *)
Definition to_a_example : ClientRequest.t :=
  get http "a.example" "/video.mp4".

(** The same requests with [Range: bytes=100-199]. *)
Definition ranged_get (hostname path : string) : ClientRequest.t :=
  ClientRequest.mk http "GET"
    (Opts.set_header "Range" "bytes=100-199"
       (ClientRequest.opts (get http hostname path))).

Definition to_a_example_ranged : ClientRequest.t :=
  ranged_get "a.example" "/video.mp4".

Definition to_media_example_ranged : ClientRequest.t :=
  ranged_get "media.example" "/clip.webm".



Definition at_ftp_example : URL.t :=
  URL.mk "ftp:" "" "" "example.com" "" "/file.mp4" "" "".

Definition at_media_example : URL.t :=
  URL.mk "http:" "" "" "media.example" "" "/clip.webm" "" "".

Definition at_odd_example : URL.t :=
  URL.mk "http:" "" "" "odd.example" "" "/v.mp4" "" "".

Definition partial_content : IncomingMessage.t :=
  IncomingMessage.mk 206
    (list_to_map [("content-type", "video/webm"); ("content-length", "100");
                  ("content-range", "bytes 100-199/1000")])
    "one hundred bytes".

End Scenario.

(** ** Well-formed text

    A JavaScript string holds no lone surrogate exactly when the bytes that
    stand for it here are well-formed UTF-8. *)

Module Unicode.
Import Node.

Fixpoint scan (st : Utf8) (s : string) : bool :=
  match s, st with
  | EmptyString, Boundary => true
  | EmptyString, More _ _ _ => false
  | String c rest, Boundary =>
      match lead (code c) with
      | Some st' => scan st' rest
      | None => false
      end
  | String c rest, More k lo hi =>
      (lo <=? code c)%N && (code c <=? hi)%N && scan (after_continuation k) rest
  end.

Definition well_formed (s : string) : Prop := scan Boundary s = true.

(** [s] holds no percent sign. *)
Definition plain (s : string) : Prop := any (Ascii.eqb "%") s = false.

End Unicode.

(** ** The page's script

    The functions of the inline script (lines 332-636) that compute text:
    [esc], and the address [playVideo] gives the video element. *)

Module Page.
Section script.
Context `{Platform.t}.

(** The replacement table of [esc], line 374. *)
Definition entity (c : ascii) : option string :=
  if Ascii.eqb c "<" then Some "&lt;"
  else if Ascii.eqb c ">" then Some "&gt;"
  else if Ascii.eqb c "034" then Some "&quot;"
  else if Ascii.eqb c "'" then Some "&#39;"
  else if Ascii.eqb c "&" then Some "&amp;"
  else None.

(** [String(s).replace(/.../g, c => table[c])]: each of the five
    characters of the table gives way to its entity. *)
Fixpoint replace (s : string) : string :=
  match s with
  | EmptyString => ""
  | String c rest => default (String c "") (entity c) +:+ replace rest
  end.

(** [esc(s)], for [s] either [undefined] or a string. *)
Definition esc (s : option string) : string :=
  if Js.truthy_opt s then replace (Js.to_string s) else "".

(** The characters that would end a text node or an attribute value. *)
Definition breaks_out (c : ascii) : bool :=
  Node.one_of (String "034" "<>'") c.

(** [s] holds none of the five characters of the table. *)
Definition untouched (s : string) : Prop :=
  Node.all (fun c => bool_decide (entity c = None)) s = true.

(** [playVideo], lines 584-586: what [video.src] is set to for an episode
    whose [url] is the given string. *)
Definition video_src (url : string) : string :=
  if String.prefix "http://" url
  then "/video-proxy?url=" +:+ Platform.encodeURIComponent url
  else url.

(** The request the relay's handler receives when the video element
    fetches [src] with the given [Range] header; [None] when [src] does
    not lead to the relay. *)
Definition fetched_through_relay (src : string) (range : option string)
  : option Request.t :=
  raw ← Browser.strip_prefix "/video-proxy?url=" src;
  Some (Express.get_video_proxy (Some raw) range).

End script.
End Page.

(** ** Numbers of the listing route

    [parseInt] gives NaN or the double nearest to an integer, an infinity
    when the integer is beyond the doubles; the products and sums that the
    route forms of such numbers are of this kind again. Both zeros are
    [Finite 0]: nothing the route does tells them apart. *)

Module Number.

Inductive t : Type :=
| NaN
| Infinity (negative : bool)
| Finite (z : Z).

(** The double nearest to an integer: the integer itself below 2^53 in
    size; beyond, 53 bits are kept, a tie goes to the even one, and from
    2^1024 on the result is an infinity. *)
Definition round (z : Z) : t :=
  let size := Z.abs z in
  if (size <? 2 ^ 53)%Z then Finite z
  else
    let e := (Z.log2 size - 52)%Z in
    let kept := (size / 2 ^ e)%Z in
    let rest := (size mod 2 ^ e)%Z in
    let half := (2 ^ (e - 1))%Z in
    let kept :=
      if (half <? rest)%Z || ((rest =? half)%Z && Z.odd kept) then (kept + 1)%Z
      else kept in
    if (2 ^ 1024 <=? kept * 2 ^ e)%Z then Infinity (z <? 0)%Z
    else Finite (Z.sgn z * (kept * 2 ^ e))%Z.

(** [a * b] *)
Definition mul (a b : t) : t :=
  match a, b with
  | NaN, _ | _, NaN => NaN
  | Infinity s, Infinity s' => Infinity (xorb s s')
  | Infinity s, Finite z | Finite z, Infinity s =>
      if (z =? 0)%Z then NaN else Infinity (xorb s (z <? 0)%Z)
  | Finite x, Finite y => round (x * y)
  end.

(** [a + b] *)
Definition add (a b : t) : t :=
  match a, b with
  | NaN, _ | _, NaN => NaN
  | Infinity s, Infinity s' => if Bool.eqb s s' then Infinity s else NaN
  | Infinity s, Finite _ | Finite _, Infinity s => Infinity s
  | Finite x, Finite y => round (x + y)
  end.

(** [a < b] *)
Definition lt (a b : t) : bool :=
  match a, b with
  | NaN, _ | _, NaN => false
  | Infinity s, Infinity s' => s && negb s'
  | Infinity s, Finite _ => s
  | Finite _, Infinity s => negb s
  | Finite x, Finite y => (x <? y)%Z
  end.

(** ToBoolean: NaN and the zeros are falsy. *)
Definition truthy (a : t) : bool :=
  match a with
  | NaN => false
  | Infinity _ => true
  | Finite z => negb (z =? 0)%Z
  end.

(** [a || d] *)
Definition or_default (a : t) (d : Z) : t :=
  if truthy a then a else Finite d.

End Number.

(** ** The listing of the catalog, [GET /api/series] (lines 131-160) *)

Module Api.

(** The built-ins of the route: [parseInt] applied to a query parameter,
    and [String.prototype.toLowerCase]. *)
Class Builtins : Type := {
  parseInt : option string -> Number.t;
  toLowerCase : string -> string
}.

(** An entry of [SERIES_LIST], with a string for name and poster. *)
Module Series.
Record t : Type := mk {
  name : string;
  poster : string;
  seasons : nat;
  count : nat
}.
End Series.

(** [req.query], each parameter [undefined] or a string. *)
Module Query.
Record t : Type := mk {
  page : option string;
  limit : option string;
  q : option string;
  random : option string
}.
End Query.

(** The object passed to [res.json]; its [status] is always ['ok']. *)
Module Listing.
Record t : Type := mk {
  total : nat;
  page : Number.t;
  hasMore : bool;
  data : list Series.t
}.
End Listing.

(** An array holds fewer than 2^32 elements. *)
Definition array {A} (items : list A) : Prop :=
  (Z.of_nat (length items) < 2 ^ 32)%Z.

(** [hay.includes(needle)] *)
Fixpoint includes (needle hay : string) : bool :=
  String.prefix needle hay
  || match hay with
     | EmptyString => false
     | String _ rest => includes needle rest
     end.

(** The position an index of [slice] stands for in an array of [len]
    elements: NaN is 0, a negative index counts from the end, and nothing
    lies before the start or past the end. *)
Definition relative (len : nat) (index : Number.t) : nat :=
  match index with
  | Number.NaN => 0
  | Number.Infinity negative => if negative then 0 else len
  | Number.Finite i =>
      Z.to_nat (if (i <? 0)%Z then Z.max (Z.of_nat len + i) 0
                else Z.min i (Z.of_nat len))
  end.

(** [list.slice(start, end)] *)
Definition slice {A} (start final : Number.t) (items : list A) : list A :=
  let len := length items in
  take (relative len final - relative len start) (drop (relative len start) items).

(** [[list[i], list[j]] = [list[j], list[i]]], both indices in range. *)
Definition swap {A} (i j : nat) (items : list A) : list A :=
  match items !! i, items !! j with
  | Some x, Some y => <[j := x]> (<[i := y]> items)
  | _, _ => items
  end.

(** The loop of lines 144-147, from index [i] down to 1. [pick i] is the
    value [Math.floor(Math.random() * (i + 1))] takes at index [i]; it is
    never above [i]. *)
Fixpoint shuffle_from {A} (i : nat) (pick : nat -> nat) (items : list A) : list A :=
  match i with
  | O => items
  | S i' => shuffle_from i' pick (swap i (pick i) items)
  end.

Definition shuffle {A} (pick : nat -> nat) (items : list A) : list A :=
  shuffle_from (length items - 1) pick items.

Section route.
Context `{Builtins}.

(** The entries a search keeps, lines 139-141. *)
Definition matching (search : string) (items : list Series.t) : list Series.t :=
  if Js.truthy search
  then filter (fun s => includes search (toLowerCase (Series.name s)) = true) items
  else items.

(** The handler of [GET /api/series]. *)
Definition series (SERIES_LIST : list Series.t) (pick : nat -> nat) (query : Query.t)
  : Listing.t :=
  let page := Number.or_default (parseInt (Query.page query)) 0 in
  let limit := Number.or_default (parseInt (Query.limit query)) 24 in
  let search := toLowerCase (Js.or_default (Query.q query) "") in
  let random := bool_decide (Query.random query = Some "true") in
  let list := matching search SERIES_LIST in
  let list := if random then shuffle pick list else list in
  let total := length list in
  let start := Number.mul page limit in
  Listing.mk total page
    (Number.lt (Number.add start limit) (Number.Finite (Z.of_nat total)))
    (slice start (Number.add start limit) list).

(** The same request for another page. *)
Definition on_page (page : option string) (query : Query.t) : Query.t :=
  Query.mk page (Query.limit query) (Query.q query) (Query.random query).

(** The limit the handler works with. *)
Definition limit_of (query : Query.t) : Number.t :=
  Number.or_default (parseInt (Query.limit query)) 24.

(** The search the handler works with. *)
Definition search_of (query : Query.t) : string :=
  toLowerCase (Js.or_default (Query.q query) "").

End route.

(** Executable built-ins, for text in ASCII: [parseInt] skips the ASCII
    white space, [toLowerCase] changes the ASCII capitals. *)
Definition digits_of (radix : N) (s : string) : string :=
  (Node.break (fun c => negb (bool_decide (is_Some (Node.number radix (String c ""))))) s).1.

Definition node_parseInt (v : option string) : Number.t :=
  match v with
  | None => Number.NaN
  | Some s =>
      let s := Node.drop_while (fun c => Node.one_of
                 (String "009" (String "010" (String "011" (String "012"
                    (String "013" " "))))) c) s in
      let '(sign, s) :=
        match s with
        | String "-" rest => ((-1)%Z, rest)
        | String "+" rest => (1%Z, rest)
        | _ => (1%Z, s)
        end in
      let '(radix, s) :=
        match s with
        | String "0" (String x rest) =>
            if Node.one_of "xX" x then (16%N, rest) else (10%N, s)
        | _ => (10%N, s)
        end in
      let digits := digits_of radix s in
      match Node.number radix digits with
      | Some n => if String.eqb digits "" then Number.NaN
                  else Number.round (sign * Z.of_N n)
      | None => Number.NaN
      end
  end.

#[export] Instance node : Builtins := {|
  parseInt := node_parseInt;
  toLowerCase := Node.smap Node.to_lower
|}.

End Api.

(** ** Grouping the episodes, the loop of [loadData] (lines 65-89)

    The items of [data.json] are taken as parsed: [null], or a value whose
    six properties read by the loop are scalars ([undefined] for a property
    that is missing, and for every property of an item that is no object). *)

Module Catalog.

(** The numbers of [data.json], as far as the loop looks at them: whether
    one is falsy, as the zeros are, and the text it turns into as a
    property key or in a title. *)
Class Numbers : Type := {
  number : Type;
  one : number;                      (* the literal [1] *)
  number_truthy : number -> bool;    (* ToBoolean *)
  number_text : number -> string     (* ToString *)
}.

(** Among them, the integers up to 2^53 in size: a double holds each of
    them exactly, and its text is its digits. *)
Module SafeInteger.
Record t : Type := mk {
  value : Z;
  safe : Is_true (Z.abs value <=? 2 ^ 53)%Z
}.
Definition text (n : t) : string :=
  if (value n <? 0)%Z then "-" +:+ Node.decimal (Z.to_N (- value n))
  else Node.decimal (Z.to_N (value n)).
End SafeInteger.

#[export] Instance safe_integers : Numbers := {|
  number := SafeInteger.t;
  one := SafeInteger.mk 1 I;
  number_truthy n := negb (SafeInteger.value n =? 0)%Z;
  number_text := SafeInteger.text
|}.

Inductive Value `{Numbers} : Type :=
| Undefined
| Null
| Bool (b : bool)
| Num (n : number)
| Str (s : string).

(** ToBoolean *)
Definition truthy `{Numbers} (v : Value) : bool :=
  match v with
  | Undefined | Null => false
  | Bool b => b
  | Num n => number_truthy n
  | Str s => Js.truthy s
  end.

(** [v || d] *)
Definition or_else `{Numbers} (v d : Value) : Value :=
  if truthy v then v else d.

(** ToString, which also gives the property key a value stands for. *)
Definition to_string `{Numbers} (v : Value) : string :=
  match v with
  | Undefined => "undefined"
  | Null => "null"
  | Bool true => "true"
  | Bool false => "false"
  | Num n => number_text n
  | Str s => s
  end.

Module Item.
Record t `{Numbers} : Type := mk {
  series : Value;
  season : Value;
  logo_serie : Value;   (* the property named "logo serie" *)
  ep : Value;
  title : Value;
  url : Value
}.
Arguments mk {_} _ _ _ _ _ _.
End Item.

Module Episode.
Record t `{Numbers} : Type := mk {
  ep : Value;
  title : Value;
  url : Value
}.
Arguments mk {_} _ _ _.
End Episode.

(** A value of [map]. *)
Module Entry.
Record t `{Numbers} : Type := mk {
  name : Value;
  poster : Value;
  seasons : gmap string (list Episode.t);
  count : nat
}.
Arguments mk {_} _ _ _ _.
End Entry.

(** The names every object literal answers to without holding them: the
    properties of [Object.prototype]. Each is a function, or for
    [__proto__] an object: truthy, with no [seasons] and no [push]. *)
Definition inherited (key : string) : bool :=
  bool_decide (key ∈ ["constructor"; "__defineGetter__"; "__defineSetter__";
                       "hasOwnProperty"; "__lookupGetter__"; "__lookupSetter__";
                       "isPrototypeOf"; "propertyIsEnumerable"; "toString";
                       "valueOf"; "__proto__"; "toLocaleString"]).

(** [object[key]] is truthy, for an object whose own values are. *)
Definition present {V} (object : gmap string V) (key : string) : bool :=
  bool_decide (is_Some (object !! key)) || inherited key.

(** [const name], [const season] and the object pushed, lines 67-68, 83-87. *)
Definition name_of `{Numbers} (item : Item.t) : Value :=
  or_else (Item.series item) (Str "Sin nombre").

Definition key_of `{Numbers} (item : Item.t) : string := to_string (name_of item).

Definition season_of `{Numbers} (item : Item.t) : string :=
  to_string (or_else (Item.season item) (Str "1")).

Definition episode_of `{Numbers} (item : Item.t) : Episode.t :=
  Episode.mk
    (or_else (Item.ep item) (Num one))
    (or_else (Item.title item)
       (Str ("Episodio " +:+ to_string (or_else (Item.ep item) (Num one)))))
    (or_else (Item.url item) (Str "")).

(** One call of the callback of [data.forEach]. Reading a property of
    [null], reading [seasons[season]] off an inherited value, and calling
    its missing [push], throw. *)
Definition add `{Numbers} (map : gmap string Entry.t) (item : option Item.t)
  : Js.Completion (gmap string Entry.t) :=
  match item with
  | None => Js.Throw Js.TypeError
  | Some item =>
      let name := name_of item in
      let season := season_of item in
      let map :=
        if negb (present map (to_string name))
        then <[to_string name :=
                 Entry.mk name (or_else (Item.logo_serie item) (Str "")) ∅ 0]> map
        else map in
      match map !! to_string name with
      | None => Js.Throw Js.TypeError
      | Some entry =>
          let seasons :=
            if negb (present (Entry.seasons entry) season)
            then <[season := []]> (Entry.seasons entry)
            else Entry.seasons entry in
          match seasons !! season with
          | None => Js.Throw Js.TypeError
          | Some episodes =>
              Js.Normal
                (<[to_string name :=
                     Entry.mk (Entry.name entry) (Entry.poster entry)
                       (<[season := (episodes ++ [episode_of item])%list]> seasons)
                       (S (Entry.count entry))]> map)
          end
      end
  end.

(** [data.forEach(...)] on an empty [map]: the first throw ends it. *)
Definition group `{Numbers} (data : list (option Item.t)) : Js.Completion (gmap string Entry.t) :=
  foldl (fun acc item => map ← acc; add map item) (Js.Normal ∅) data.

(** *** Vocabulary for the statements below *)

(** The items of a series, and of a season, in the order of the file. *)
Definition of_series `{Numbers} (key : string) (items : list Item.t) : list Item.t :=
  filter (fun item => key_of item = key) items.

Definition of_season `{Numbers} (season : string) (items : list Item.t) : list Item.t :=
  filter (fun item => season_of item = season) items.

(** The episodes a season holds for these items: none without items. *)
Definition episodes_for `{Numbers} (items : list Item.t) : option (list Episode.t) :=
  match items with
  | [] => None
  | _ :: _ => Some (episode_of <$> items)
  end.

(** [map] holds, under every key, what the items with that key make up. *)
Definition groups `{Numbers} (items : list Item.t) (map : gmap string Entry.t) : Prop :=
  ∀ key,
    match of_series key items with
    | [] => map !! key = None
    | first :: _ =>
        ∃ entry,
          map !! key = Some entry
          ∧ Entry.name entry = name_of first
          ∧ Entry.poster entry = or_else (Item.logo_serie first) (Str "")
          ∧ Entry.count entry = length (of_series key items)
          ∧ ∀ season, Entry.seasons entry !! season
                      = episodes_for (of_season season (of_series key items))
    end.

(** An item the loop gets through. *)
Definition loadable `{Numbers} (item : option Item.t) : Prop :=
  ∃ fields, item = Some fields
            ∧ inherited (key_of fields) = false
            ∧ inherited (season_of fields) = false.

(** Nothing is stored under an inherited name. *)
Definition own `{Numbers} (map : gmap string Entry.t) : Prop :=
  ∀ key entry, map !! key = Some entry →
    inherited key = false
    ∧ ∀ season, is_Some (Entry.seasons entry !! season) → inherited season = false.

(** The sum of the [count]s. *)
Definition counted `{Numbers} (map : gmap string Entry.t) : nat :=
  map_fold (fun _ entry total => Entry.count entry + total)%nat 0%nat map.

End Catalog.

(** ** Samples

    A small catalog, an origin that redirects to a relative address, and
    a data file, for running the definitions above. *)

Module Sample.

Definition shows : list Api.Series.t :=
  [Api.Series.mk "Alpha" "" 1 3; Api.Series.mk "Beta" "" 2 8;
   Api.Series.mk "Gamma" "" 1 1; Api.Series.mk "alphabet" "" 4 40;
   Api.Series.mk "Delta" "" 1 2].

(** The first index of the range at every step. *)
Definition first_pick : nat -> nat := fun i => 0%nat.

Definition page_text (p : nat) : option string :=
  match p with
  | 0%nat => Some "0"
  | 1%nat => Some "1"
  | _ => Some "2"
  end.

Definition two_per_page : Api.Query.t :=
  Api.Query.mk None (Some "2") None None.

Definition search_alpha : Api.Query.t :=
  Api.Query.mk None None (Some "ALPHA") (Some "true").

Definition all_but_one : Api.Query.t :=
  Api.Query.mk None (Some "-1") None None.

(** Every request is answered with a redirect to a path on the same host. *)
Definition moved_nearby : Upstream :=
  fun proxyReq => Scenario.respond 302 [("location", "/next.mp4")] "".

(** A number of a data file, on [Catalog.safe_integers]. *)
Definition number (value : Z) (safe : Is_true (Z.abs value <=? 2 ^ 53)%Z)
  : @Catalog.Value Catalog.safe_integers :=
  @Catalog.Num Catalog.safe_integers (Catalog.SafeInteger.mk value safe).

(** A data file of three items, the second one [{}], and its grouping. *)
Definition file : list (option Catalog.Item.t) :=
  [Some (Catalog.Item.mk (Catalog.Str "Alpha") (number 1 I) (Catalog.Str "a.png")
           (number 1 I) (Catalog.Str "Pilot")
           (Catalog.Str "http://media.example/a1.mp4"));
   Some (Catalog.Item.mk Catalog.Undefined Catalog.Undefined Catalog.Undefined
           Catalog.Undefined Catalog.Undefined Catalog.Undefined);
   Some (Catalog.Item.mk (Catalog.Str "Alpha") (Catalog.Str "1") (Catalog.Str "b.png")
           (number 2 I) Catalog.Undefined
           (Catalog.Str "http://media.example/a2.mp4"))].

Definition grouped : gmap string Catalog.Entry.t :=
  {[ "Alpha" :=
       Catalog.Entry.mk (Catalog.Str "Alpha") (Catalog.Str "a.png")
         {[ "1" :=
              [Catalog.Episode.mk (number 1 I) (Catalog.Str "Pilot")
                 (Catalog.Str "http://media.example/a1.mp4");
               Catalog.Episode.mk (number 2 I) (Catalog.Str "Episodio 2")
                 (Catalog.Str "http://media.example/a2.mp4")] ]}
         2;
     "Sin nombre" :=
       Catalog.Entry.mk (Catalog.Str "Sin nombre") (Catalog.Str "")
         {[ "1" :=
              [Catalog.Episode.mk (number 1 I) (Catalog.Str "Episodio 1")
                 (Catalog.Str "")] ]}
         1 ]}.

End Sample.

(** * Properties *)

(** ** Truthiness *)

Module JsFacts.
Import Js.

Lemma truthy_true (s : string) : truthy s = true <-> s <> "".
Proof. destruct s; simpl; split; congruence. Qed.

Lemma truthy_opt_true (v : option string) :
  truthy_opt v = true <-> exists s, v = Some s /\ s <> "".
Proof.
  destruct v as [s|]; simpl.
  - rewrite truthy_true. split; [eauto | intros (s' & [= ->] & H); exact H].
  - split; [discriminate | intros (s' & H & _); discriminate].
Qed.

Lemma truthy_opt_false (v : option string) :
  truthy_opt v = false <-> v = None \/ v = Some "".
Proof.
  destruct v as [[|c s]|]; simpl; split; intros H; auto;
    try discriminate; destruct H as [H|H]; discriminate.
Qed.

Lemma or_default_some (v : option string) (d s : string) :
  v = Some s → s ≠ "" → or_default v d = s.
Proof. intros -> Hs. simpl. apply truthy_true in Hs. by rewrite Hs. Qed.

Lemma or_default_none (v : option string) (d : string) :
  v = None ∨ v = Some "" → or_default v d = d.
Proof. by intros [-> | ->]. Qed.

End JsFacts.

(** ** The handler, over any platform *)

Module RelayFacts.
Import Platform ServerResponse Relay JsFacts.

Section facts.
Context `{Platform.t} `{Accepts.t}.
Implicit Types (upstream : Upstream) (req : Request.t) (parsed : URL.t).
Implicit Types (proxyRes : IncomingMessage.t) (res : ServerResponse.t).

(** The [try] block: decode and parse, then ask the client module. *)
Lemma try_block_target upstream req res :
  try_block upstream req res =
    parsed ← target req;
    proxyReq ← request (client_for parsed) (options parsed req);
    mret (outcome upstream proxyReq res).
Proof.
  unfold try_block, target.
  destruct (decodeURIComponent _) as [decodedUrl|e]; simpl; [|done].
  by destruct (new_URL decodedUrl).
Qed.

Lemma handler_falsy upstream req :
  Js.truthy_opt (Request.query_url req) = false → handler upstream req = bad_request.
Proof. intros Hurl. unfold handler. by rewrite Hurl. Qed.

Lemma handler_throw upstream req e :
  target req = Js.Throw e → handler upstream req = bad_request.
Proof.
  intros Htarget. unfold handler.
  destruct (Js.truthy_opt _); simpl; [|done].
  by rewrite try_block_target, Htarget.
Qed.

(** The client module turning the path down is answered like a bad URL. *)
Lemma handler_refused upstream req parsed e :
  resolves req parsed →
  request (client_for parsed) (options parsed req) = Js.Throw e →
  handler upstream req = bad_request.
Proof.
  intros [Hurl Htarget] Hrequest. unfold handler.
  rewrite Hurl, try_block_target, Htarget. simpl.
  unfold mbind, completion_bind. simpl. by rewrite Hrequest.
Qed.

(** Once a request is sent, it is the only one, and its outcome decides. *)
Lemma handler_sends upstream req parsed proxyReq :
  sends req parsed proxyReq →
  handler upstream req = outcome upstream proxyReq fresh.
Proof.
  intros [[Hurl Htarget] Hrequest]. unfold handler.
  rewrite Hurl, try_block_target, Htarget. simpl.
  unfold mbind, completion_bind. simpl. by rewrite Hrequest.
Qed.

(** What is sent is the client module and [opts] the handler chose. *)
Lemma request_normal (client : Client) (opts : Opts.t) proxyReq :
  request client opts = Js.Normal proxyReq ↔
  unescaped_characters (Opts.path opts) = false
  ∧ proxyReq = ClientRequest.mk client "GET" opts.
Proof.
  unfold request. destruct (unescaped_characters _); split.
  - discriminate.
  - by intros [? _].
  - by intros [= <-].
  - by intros [_ ->].
Qed.


(** The test of line 195, as a proposition. *)
Lemma redirect_test proxyRes :
  includes [301; 302; 307; 308] (IncomingMessage.statusCode proxyRes)
  && Js.truthy_opt (IncomingMessage.headers proxyRes !! "location") = true
  ↔ redirects proxyRes.
Proof.
  unfold includes, redirects.
  rewrite andb_true_iff, bool_decide_eq_true, truthy_opt_true. naive_solver.
Qed.

(** The test inside [res.status]. *)
Lemma status_relayable (code : nat) res :
  (100 ≤ code ≤ 999)%nat →
  status code res = Js.Normal (ServerResponse.mk code (headers res) (body res)).
Proof.
  intros [Hlow Hhigh]. unfold status.
  apply Nat.leb_le in Hlow, Hhigh. by rewrite Hlow, Hhigh.
Qed.

Lemma status_out_of_range (code : nat) res :
  ¬ (100 ≤ code ≤ 999)%nat → status code res = Js.Throw Js.RangeError.
Proof.
  intros Hcode. unfold status.
  destruct (100 <=? code)%nat eqn:Hlow; [|done].
  destruct (code <=? 999)%nat eqn:Hhigh; [|done].
  apply Nat.leb_le in Hlow, Hhigh. lia.
Qed.

Lemma outcome_outbound upstream proxyReq res :
  Exchange.outbound (outcome upstream proxyReq res) = [proxyReq].
Proof.
  unfold outcome, settle.
  destruct (upstream proxyReq) as [proxyRes|e|]; [| |done].
  - by destruct (on_response proxyRes res).
  - by destruct (on_error res).
Qed.

Lemma handler_outbound_sends upstream req parsed proxyReq :
  sends req parsed proxyReq →
  Exchange.outbound (handler upstream req) = [proxyReq].
Proof.
  intros Hsends. rewrite (handler_sends _ _ _ _ Hsends). apply outcome_outbound.
Qed.

(** Every run ends in one of two ways: nothing was sent and the answer is
    400, or exactly one request was sent, built from the parsed URL. *)
Lemma handler_cases upstream req :
  handler upstream req = bad_request
  ∨ ∃ parsed proxyReq,
      sends req parsed proxyReq
      ∧ Exchange.outbound (handler upstream req) = [proxyReq].
Proof.
  destruct (Js.truthy_opt (Request.query_url req)) eqn:Hurl;
    [|left; by apply handler_falsy].
  destruct (target req) as [parsed|e] eqn:Htarget;
    [|left; by eapply handler_throw].
  destruct (request (client_for parsed) (options parsed req)) as [proxyReq|e] eqn:Hrequest.
  - right. exists parsed, proxyReq.
    assert (sends req parsed proxyReq) as Hsends by done.
    split; [done|]. by eapply handler_outbound_sends.
  - left. by eapply (handler_refused _ _ parsed).
Qed.


(** For a given request, at most one URL and one outbound request. *)
Lemma sends_inj req parsed parsed' proxyReq proxyReq' :
  sends req parsed proxyReq → sends req parsed' proxyReq' →
  parsed = parsed' ∧ proxyReq = proxyReq'.
Proof.
  intros [[_ Htarget] Hrequest] [[_ Htarget'] Hrequest'].
  assert (parsed = parsed') as <- by congruence.
  split; [done | congruence].
Qed.

(** *** Invalid input *)

(** A request whose [url] parameter is missing, is empty, or does not decode
    and parse inside the handler is answered with status 400 and an empty
    body, and no outbound request is issued for it. *)
Lemma invalid_url_is_400 upstream req :
  Request.query_url req = None
  ∨ Request.query_url req = Some ""
  ∨ (∃ e, target req = Js.Throw e) →
  handler upstream req = bad_request.
Proof.
  intros [Hurl | [Hurl | [e Hthrow]]].
  - apply handler_falsy. by rewrite Hurl.
  - apply handler_falsy. by rewrite Hurl.
  - by apply (handler_throw _ _ _ Hthrow).
Qed.

(** *** The response callback *)

Lemma on_response_redirect proxyRes res (location : string) :
  IncomingMessage.statusCode proxyRes ∈ [301; 302; 307; 308] →
  IncomingMessage.headers proxyRes !! "location" = Some location →
  location ≠ "" →
  on_response proxyRes res =
    Js.Normal (redirect ("/video-proxy?url=" +:+ encodeURIComponent location) res).
Proof.
  intros Hcode Hlocation Hne.
  assert (redirects proxyRes) as Hredirect by (split; eauto).
  apply redirect_test in Hredirect.
  unfold on_response. by rewrite Hredirect, Hlocation.
Qed.

Lemma on_response_content proxyRes res :
  ¬ redirects proxyRes →
  relayable proxyRes →
  let headers := IncomingMessage.headers proxyRes in
  on_response proxyRes res =
    Js.Normal
      (pipe proxyRes
         ((if Js.truthy_opt (headers !! "content-range")
           then setHeader "Content-Range" (Js.to_string (headers !! "content-range"))
           else id)
            ((if Js.truthy_opt (headers !! "content-length")
              then setHeader "Content-Length" (Js.to_string (headers !! "content-length"))
              else id)
               (setHeader "Accept-Ranges" "bytes"
                  (setHeader "Content-Type"
                     (Js.or_default (headers !! "content-type") "video/mp4")
                     (ServerResponse.mk (IncomingMessage.statusCode proxyRes)
                        (ServerResponse.headers res) (body res))))))).
Proof.
  intros Hcontent Hcode headers. unfold on_response. fold headers.
  destruct (includes _ _ && _) eqn:Htest.
  - by apply redirect_test in Htest.
  - rewrite (status_relayable _ _ Hcode). simpl.
    by destruct (Js.truthy_opt (headers !! "content-length")),
         (Js.truthy_opt (headers !! "content-range")).
Qed.

(** The callback throws exactly on a status that [res.status] turns down,
    and then a [RangeError]. *)
Lemma on_response_throws proxyRes res e :
  on_response proxyRes res = Js.Throw e
  ↔ e = Js.RangeError ∧ ¬ redirects proxyRes ∧ ¬ relayable proxyRes.
Proof.
  unfold on_response, relayable.
  destruct (includes _ _ && _) eqn:Htest.
  - apply redirect_test in Htest. split; [done | tauto].
  - assert (¬ redirects proxyRes) as Hcontent.
    { intros Hredirect%redirect_test. congruence. }
    destruct (decide (100 ≤ IncomingMessage.statusCode proxyRes ≤ 999)%nat)
      as [Hcode|Hcode].
    + rewrite (status_relayable _ _ Hcode). simpl. split; [done | tauto].
    + rewrite (status_out_of_range _ _ Hcode). simpl.
      split; [by intros [= <-] | by intros [-> _]].
Qed.

(** The listener and the [catch] clause cannot throw. *)
Lemma end_with_literal (code : nat) res :
  (100 ≤ code ≤ 999)%nat →
  end_with code res = Js.Normal (ServerResponse.mk code (headers res) Empty).
Proof. intros Hcode. unfold end_with. by rewrite (status_relayable _ _ Hcode). Qed.

(** An exception escapes the handler in one way only. *)
Lemma handler_uncaught upstream req e :
  Exchange.uncaught (handler upstream req) = Some e ↔
  e = Js.RangeError
  ∧ ∃ parsed proxyReq proxyRes,
      sends req parsed proxyReq
      ∧ upstream proxyReq = OnResponse proxyRes
      ∧ ¬ redirects proxyRes ∧ ¬ relayable proxyRes.
Proof.
  destruct (handler_cases upstream req) as [Hbad | (parsed & proxyReq & Hsends & _)].
  - rewrite Hbad. simpl. split; [done|].
    intros (_ & parsed & proxyReq & proxyRes & Hsends & _).
    rewrite (handler_sends _ _ _ _ Hsends) in Hbad.
    apply (f_equal Exchange.outbound) in Hbad.
    by rewrite outcome_outbound in Hbad.
  - rewrite (handler_sends _ _ _ _ Hsends). unfold outcome.
    destruct (upstream proxyReq) as [proxyRes|failure|] eqn:Hup.
    + unfold settle.
      destruct (on_response proxyRes fresh) as [answered|thrown] eqn:Hcallback; simpl.
      * split; [done|].
        intros (-> & parsed' & proxyReq' & proxyRes' & Hsends' & Hup' & Hcontent & Hcode).
        destruct (sends_inj _ _ _ _ _ Hsends Hsends') as [<- <-].
        assert (proxyRes' = proxyRes) as -> by congruence.
        assert (on_response proxyRes fresh = Js.Throw Js.RangeError) as Hthrow
          by (by apply on_response_throws).
        congruence.
      * apply on_response_throws in Hcallback as (-> & Hcontent & Hcode).
        split; [intros [= <-] | by intros [-> _]].
        split; [done|]. by exists parsed, proxyReq, proxyRes.
    + simpl. split; [done|].
      intros (_ & parsed' & proxyReq' & proxyRes' & Hsends' & Hup' & _).
      destruct (sends_inj _ _ _ _ _ Hsends Hsends') as [<- <-]. congruence.
    + simpl. split; [done|].
      intros (_ & parsed' & proxyReq' & proxyRes' & Hsends' & Hup' & _).
      destruct (sends_inj _ _ _ _ _ Hsends Hsends') as [<- <-]. congruence.
Qed.

(** C10. An exception thrown while [url] is percent-decoded or parsed
    arises inside the [try] block and is answered by the [catch] clause
    with status 400. The response callback, however, is called after the
    block has been left: when the upstream answers with a status that
    [res.status] turns down, one outside 100..999, and the response is not
    treated as a redirect, the [RangeError] is caught by nothing and
    nothing is written to the inbound response. Among the calls the
    handler makes, no other one throws outside the block. *)
Theorem C10_callback_exception_escapes upstream (url : string) (range : option string) :
  let req := Request.mk (Some url) range in
  (∀ e, decodeURIComponent url = Js.Throw e
        ∨ (∃ decodedUrl, decodeURIComponent url = Js.Normal decodedUrl
                         ∧ new_URL decodedUrl = Js.Throw e) →
        try_block upstream req fresh = Js.Throw e
        ∧ handler upstream req = bad_request)
  ∧ (∀ parsed proxyReq proxyRes,
       sends req parsed proxyReq →
       upstream proxyReq = OnResponse proxyRes →
       ¬ redirects proxyRes → ¬ relayable proxyRes →
       Exchange.outbound (handler upstream req) = [proxyReq]
       ∧ Exchange.uncaught (handler upstream req) = Some Js.RangeError
       ∧ body (Exchange.response (handler upstream req)) = Open)
  ∧ (∀ e, Exchange.uncaught (handler upstream req) = Some e →
       e = Js.RangeError
       ∧ ∃ parsed proxyReq proxyRes,
           sends req parsed proxyReq
           ∧ upstream proxyReq = OnResponse proxyRes
           ∧ ¬ redirects proxyRes ∧ ¬ relayable proxyRes).
Proof.
  intros req. split; [|split].
  - intros e Hthrow.
    assert (target req = Js.Throw e) as Htarget.
    { unfold target. simpl.
      destruct Hthrow as [-> | (decodedUrl & -> & Hparse)]; [done|].
      simpl. by rewrite Hparse. }
    split; [|by eapply handler_throw].
    by rewrite try_block_target, Htarget.
  - intros parsed proxyReq proxyRes Hsends Hup Hcontent Hcode.
    rewrite (handler_sends _ _ _ _ Hsends). unfold outcome. rewrite Hup.
    assert (on_response proxyRes fresh = Js.Throw Js.RangeError) as ->
      by (by apply on_response_throws).
    done.
  - intros e. apply handler_uncaught.
Qed.

(** *** Upstream failure *)

(** C8, amended. When the outbound request fails with an error in place
    of a response, the inbound answer is status 502 with no header and no
    body, the same whatever the error was, and the failed request is the
    only one issued: nothing is retried. When the origin never answers, no
    event arrives, for the handler has set no timeout: the request stays
    the only one issued and nothing is ever written to the inbound
    response, no 502 either. *)
Theorem C8_upstream_error_is_502 upstream req parsed proxyReq :
  sends req parsed proxyReq →
  (∀ e : SocketError, upstream proxyReq = OnError e →
     handler upstream req = Exchange.mk [proxyReq] bad_gateway None)
  ∧ (upstream proxyReq = Silence →
     handler upstream req = Exchange.mk [proxyReq] fresh None
     ∧ body (Exchange.response (handler upstream req)) = Open).
Proof.
  intros Hsends. rewrite (handler_sends _ _ _ _ Hsends). unfold outcome. split.
  - by intros e ->.
  - by intros ->.
Qed.

(** *** The outbound request *)

Lemma options_headers parsed req (name : string) :
  name ≠ "Range" →
  Opts.headers (options parsed req) !! name =
    (<["Accept-Encoding" := "identity"]>
       (<["Accept" := "*/*"]> (<["User-Agent" := "Mozilla/5.0"]> ∅))
     : gmap string string) !! name.
Proof.
  intros Hname. unfold options.
  destruct (Js.truthy_opt _); simpl; [|done].
  by rewrite lookup_insert_ne.
Qed.

Lemma options_range parsed req :
  Opts.headers (options parsed req) !! "Range" =
    if Js.truthy_opt (Request.headers_range req) then Request.headers_range req else None.
Proof.
  unfold options.
  destruct (Request.headers_range req) as [[|c r]|]; simpl; by simplify_map_eq.
Qed.

Lemma sends_request req parsed proxyReq :
  sends req parsed proxyReq →
  proxyReq = ClientRequest.mk (client_for parsed) "GET" (options parsed req).
Proof. intros [_ Hrequest]. by apply request_normal in Hrequest as [_ ->]. Qed.

(** C5, amended. For every target URL that parses, the outbound request
    uses method GET with [User-Agent: Mozilla/5.0], [Accept: */*] and
    [Accept-Encoding: identity]; an inbound [Range] header with a non-empty
    value is forwarded with that value unchanged, and no [Range] header is
    sent when the inbound request has none or has one with an empty value. *)
Theorem C5_outbound_request_headers upstream req parsed proxyReq :
  sends req parsed proxyReq →
  Exchange.outbound (handler upstream req) = [proxyReq]
  ∧ ClientRequest.method proxyReq = "GET"
  ∧ Opts.headers (ClientRequest.opts proxyReq) !! "User-Agent" = Some "Mozilla/5.0"
  ∧ Opts.headers (ClientRequest.opts proxyReq) !! "Accept" = Some "*/*"
  ∧ Opts.headers (ClientRequest.opts proxyReq) !! "Accept-Encoding" = Some "identity"
  ∧ (∀ range, Request.headers_range req = Some range → range ≠ "" →
       Opts.headers (ClientRequest.opts proxyReq) !! "Range" = Some range)
  ∧ (Request.headers_range req = None ∨ Request.headers_range req = Some "" →
       Opts.headers (ClientRequest.opts proxyReq) !! "Range" = None).
Proof.
  intros Hsends.
  split; [by eapply handler_outbound_sends|].
  rewrite (sends_request _ _ _ Hsends). simpl.
  split; [done|].
  rewrite !options_headers by done.
  repeat (split; [done|]).
  rewrite options_range. split.
  - intros range Hrange Hne.
    assert (Js.truthy_opt (Request.headers_range req) = true) as ->; [|done].
    apply truthy_opt_true. eauto.
  - intros Hrange. apply truthy_opt_false in Hrange. by rewrite Hrange.
Qed.



(** A header copied under the test [if (proxyRes.headers[name])]. *)
Lemma copied_iff (v : option string) (value : string) :
  (if Js.truthy_opt v then Some (Js.to_string v) else None) = Some value
  ↔ v = Some value ∧ value ≠ "".
Proof.
  destruct v as [[|c s]|]; simpl.
  - split; [discriminate | by intros [[= <-] ?]].
  - split; [by intros [= <-] | by intros [[= <-] _]].
  - split; [discriminate | by intros [? _]].
Qed.

(** C4, amended. For every upstream response that is not treated as a
    redirect and whose status lies in 100..999, the inbound status equals
    the upstream status; Content-Type is the upstream's when that is
    present and non-empty, and video/mp4 when it is absent or empty;
    Accept-Ranges: bytes is set in every case; Content-Length and
    Content-Range are present exactly when the upstream supplied them with
    a non-empty value, and then with that value; the body is the
    upstream's, streamed. For a status outside 100..999 nothing of this
    happens: the callback throws a [RangeError] that nothing catches, and
    nothing is written to the inbound response. *)
Theorem C4_content_response upstream req parsed proxyReq proxyRes :
  sends req parsed proxyReq →
  upstream proxyReq = OnResponse proxyRes →
  ¬ redirects proxyRes →
  let exchange := handler upstream req in
  let res := Exchange.response exchange in
  let upstream_headers := IncomingMessage.headers proxyRes in
  (relayable proxyRes →
   Exchange.uncaught exchange = None
   ∧ statusCode res = IncomingMessage.statusCode proxyRes
   ∧ (∀ type, upstream_headers !! "content-type" = Some type → type ≠ "" →
        headers res !! "Content-Type" = Some type)
   ∧ (upstream_headers !! "content-type" = None
      ∨ upstream_headers !! "content-type" = Some "" →
        headers res !! "Content-Type" = Some "video/mp4")
   ∧ headers res !! "Accept-Ranges" = Some "bytes"
   ∧ (∀ value, headers res !! "Content-Length" = Some value
        ↔ upstream_headers !! "content-length" = Some value ∧ value ≠ "")
   ∧ (∀ value, headers res !! "Content-Range" = Some value
        ↔ upstream_headers !! "content-range" = Some value ∧ value ≠ "")
   ∧ body res = Stream (IncomingMessage.payload proxyRes))
  ∧ (¬ relayable proxyRes →
     Exchange.uncaught exchange = Some Js.RangeError
     ∧ body res = Open).
Proof.
  intros Hsends Hup Hcontent exchange res upstream_headers. subst res exchange.
  rewrite (handler_sends _ _ _ _ Hsends). unfold outcome. rewrite Hup. split.
  - intros Hcode.
    rewrite (on_response_content _ _ Hcontent Hcode). fold upstream_headers. simpl.
    split; [done|].
    split; [by repeat case_match|].
    split; [|split; [|split; [|split; [|split]]]].
    + intros type Htype Hne. rewrite (or_default_some _ _ _ Htype Hne).
      repeat case_match; simpl; by simplify_map_eq.
    + intros Htype. rewrite (or_default_none _ _ Htype).
      repeat case_match; simpl; by simplify_map_eq.
    + repeat case_match; simpl; by simplify_map_eq.
    + intros value. rewrite <- copied_iff.
      repeat case_match; simpl; by simplify_map_eq.
    + intros value. rewrite <- copied_iff.
      repeat case_match; simpl; by simplify_map_eq.
    + by repeat case_match.
  - intros Hcode.
    assert (on_response proxyRes fresh = Js.Throw Js.RangeError) as ->
      by (by apply on_response_throws).
    done.
Qed.

(** Status, headers and notice written for a redirecting upstream. *)
Lemma handler_redirect upstream req parsed proxyReq proxyRes (location : string) :
  sends req parsed proxyReq →
  upstream proxyReq = OnResponse proxyRes →
  IncomingMessage.statusCode proxyRes ∈ [301; 302; 307; 308] →
  IncomingMessage.headers proxyRes !! "location" = Some location →
  location ≠ "" →
  handler upstream req =
    Exchange.mk [proxyReq]
      (redirect ("/video-proxy?url=" +:+ encodeURIComponent location) fresh) None.
Proof.
  intros Hsends Hup Hcode Hlocation Hne.
  rewrite (handler_sends _ _ _ _ Hsends). unfold outcome. rewrite Hup.
  by rewrite (on_response_redirect _ _ _ Hcode Hlocation Hne).
Qed.

Lemma redirect_location (url : string) res :
  statusCode (redirect url res) = 302
  ∧ headers (redirect url res) !! "Location" = Some url
  ∧ body (redirect url res) = RedirectNotice url.
Proof.
  unfold redirect. simpl. split; [done|]. split; [|done].
  destruct Accepts.accepts as [[]|]; by simplify_map_eq.
Qed.

(** C1, amended. The relay does not follow redirects itself. For every
    upstream response with status 301, 302, 307 or 308 and a non-empty
    Location header, it issued one outbound request and answers the inbound
    client with status 302 and a Location header that points back at
    /video-proxy with the redirect target, percent-encoded, as [url]:
    the client sees this redirect and has to follow it. *)
Theorem C1_redirect_is_handed_to_the_client
    upstream req parsed proxyReq proxyRes (location : string) :
  sends req parsed proxyReq →
  upstream proxyReq = OnResponse proxyRes →
  IncomingMessage.statusCode proxyRes ∈ [301; 302; 307; 308] →
  IncomingMessage.headers proxyRes !! "location" = Some location →
  location ≠ "" →
  Exchange.outbound (handler upstream req) = [proxyReq]
  ∧ statusCode (Exchange.response (handler upstream req)) = 302
  ∧ headers (Exchange.response (handler upstream req)) !! "Location"
    = Some ("/video-proxy?url=" +:+ encodeURIComponent location)
  ∧ body (Exchange.response (handler upstream req))
    = RedirectNotice ("/video-proxy?url=" +:+ encodeURIComponent location).
Proof.
  intros Hsends Hup Hcode Hlocation Hne.
  split; [by eapply handler_outbound_sends|].
  rewrite (handler_redirect _ _ _ _ _ _ Hsends Hup Hcode Hlocation Hne).
  apply redirect_location.
Qed.

(** *** Chains of redirects *)


End facts.
End RelayFacts.

(** ** A client following redirects *)

Module BrowserFacts.
Import Relay Browser.

Section facts.
Context `{Platform.t} `{Accepts.t}.

Lemma follow_redirected hops upstream (raw raw' : string) (range : option string) :
  redirected_to
    (Exchange.response (handler upstream (Express.get_video_proxy (Some raw) range)))
    = Some raw' →
  follow (S hops) upstream raw range = follow hops upstream raw' range.
Proof. intros Hto. simpl. by rewrite Hto. Qed.

Lemma follow_settled hops upstream (raw : string) (range : option string) :
  redirected_to
    (Exchange.response (handler upstream (Express.get_video_proxy (Some raw) range)))
    = None →
  follow hops upstream raw range =
    handler upstream (Express.get_video_proxy (Some raw) range).
Proof. intros Hto. destruct hops; simpl; by rewrite ?Hto. Qed.

End facts.
End BrowserFacts.

(** ** The percent codec *)

Module CodecFacts.
Import Node.

Lemma unescape_encoded (c : ascii) (rest : string) :
  unescape ((if unreserved c then String c "" else percent c) +:+ rest)
  = cons (token c) <$> unescape rest.
Proof. destruct c as [[] [] [] [] [] [] [] []]; reflexivity. Qed.

Lemma unescape_encodeURIComponent (s : string) :
  unescape (encodeURIComponent s) = Some (map token (String.list_ascii_of_string s)).
Proof.
  induction s as [|c s IH]; [done|].
  cbn [encodeURIComponent String.list_ascii_of_string map].
  by rewrite unescape_encoded, IH.
Qed.

Lemma assemble_tokens (s : string) :
  is_ascii s →
  assemble Boundary (map token (String.list_ascii_of_string s)) = Some s.
Proof.
  unfold is_ascii. induction s as [|c s IH]; [done|].
  cbn [all String.list_ascii_of_string map]. intros [Hc Hs]%andb_true_iff.
  unfold token at 1. destruct (unreserved c); cbn [assemble].
  - by rewrite (IH Hs).
  - unfold lead. rewrite Hc. unfold code. rewrite ascii_N_embedding.
    by rewrite (IH Hs).
Qed.

(** Decoding undoes encoding. *)
Lemma decode_encode (s : string) :
  is_ascii s → decodeURIComponent (encodeURIComponent s) = Js.Normal s.
Proof.
  intros Hs. unfold decodeURIComponent.
  rewrite unescape_encodeURIComponent. simpl.
  by rewrite (assemble_tokens _ Hs).
Qed.

Lemma encoded_has_no_plus (s : string) :
  smap (fun c => if Ascii.eqb c "+" then " "%char else c) (encodeURIComponent s)
  = encodeURIComponent s.
Proof.
  induction s as [|c s IH]; [done|].
  cbn [encodeURIComponent].
  transitivity ((if unreserved c then String c "" else percent c)
                  +:+ smap (fun c => if Ascii.eqb c "+" then " "%char else c)
                        (encodeURIComponent s)).
  - generalize (encodeURIComponent s). intros rest.
    destruct c as [[] [] [] [] [] [] [] []]; reflexivity.
  - by rewrite IH.
Qed.

(** What the page's script encodes once, the query parser hands to the
    handler already decoded. *)
Lemma query_parser_undoes_encoding (target : string) (range : option string) :
  is_ascii target →
  Scenario.play target range = Request.mk (Some target) range.
Proof.
  intros Htarget. unfold Scenario.play, Express.get_video_proxy, Express.decode. simpl.
  by rewrite encoded_has_no_plus, (decode_encode _ Htarget).
Qed.

End CodecFacts.

(** ** Paths out of the URL parser *)

Module UrlFacts.
Import Node.

Lemma sendable_app (a b : string) :
  sendable (a +:+ b) ↔ sendable a ∧ sendable b.
Proof.
  unfold sendable. induction a as [|c a IH]; simpl.
  - tauto.
  - rewrite !orb_false_iff, IH. tauto.
Qed.

Lemma sendable_percent (c : ascii) : sendable (percent c).
Proof. destruct c as [[] [] [] [] [] [] [] []]; reflexivity. Qed.

(** Every character left alone by the path, query and special-query sets
    is one the client modules accept. *)
Lemma query_set_covers (c : ascii) :
  query_set c = false → sendable (String c "").
Proof. destruct c as [[] [] [] [] [] [] [] []]; by vm_compute. Qed.

Lemma sendable_percent_encode (set : ascii → bool) (s : string) :
  (∀ c, set c = false → sendable (String c "")) →
  sendable (percent_encode set s).
Proof.
  intros Hset. induction s as [|c s IH]; [done|].
  change (sendable ((if set c then percent c else String c "")
                      +:+ percent_encode set s)).
  apply sendable_app. split; [|done].
  destruct (set c) eqn:Hc; [apply sendable_percent | by apply Hset].
Qed.

Lemma sendable_path_segment (piece : string) :
  sendable (percent_encode path_set piece).
Proof.
  apply sendable_percent_encode. intros c Hc. apply query_set_covers.
  unfold path_set in Hc. by apply orb_false_iff in Hc as [-> _].
Qed.

Lemma sendable_special_query (query : string) :
  sendable (percent_encode special_query_set query).
Proof.
  apply sendable_percent_encode. intros c Hc. apply query_set_covers.
  unfold special_query_set in Hc. by apply orb_false_iff in Hc as [-> _].
Qed.

Lemma shorten_sendable (file : bool) (path : list string) :
  Forall sendable path → Forall sendable (shorten file path).
Proof.
  intros Hpath. unfold shorten.
  destruct path as [|only [|second path]]; [done| |by inversion Hpath].
  by destruct (file && normalized_drive_letter only).
Qed.

Lemma push_sendable (file : bool) (segment : string) (path : list string) :
  sendable segment → Forall sendable path → Forall sendable (push file segment path).
Proof.
  intros Hsegment Hpath. unfold push.
  destruct path as [|head path]; [|by constructor].
  destruct segment as [|a [|b [|c segment]]]; try by repeat constructor.
  destruct (file && windows_drive_letter _); [|by repeat constructor].
  repeat constructor.
  unfold sendable in *. simpl in *.
  apply orb_false_iff in Hsegment as [Ha _]. by rewrite Ha.
Qed.

Lemma walk_sendable (special file : bool) (pieces path : list string) :
  Forall sendable path → Forall sendable (walk special file pieces path).
Proof.
  revert path. induction pieces as [|piece pieces IH]; intros path Hpath; [done|].
  assert (Forall sendable
            (if double_dot piece then shorten file path
             else if single_dot piece then path
             else push file (percent_encode path_set piece) path)) as Hnext.
  { repeat case_match; auto using shorten_sendable, push_sendable, sendable_path_segment. }
  destruct pieces as [|piece' pieces]; [|by apply IH].
  simpl. repeat case_match;
    auto using shorten_sendable, push_sendable, sendable_path_segment.
  - constructor; [done|]. by apply shorten_sendable.
  - by constructor.
Qed.

Lemma serialize_path_sendable (path : list string) :
  Forall sendable path → sendable (serialize_path path).
Proof.
  intros Hpath. unfold serialize_path.
  apply Forall_reverse in Hpath.
  induction Hpath as [|segment path' Hsegment _ IH]; [done|].
  simpl. apply sendable_app. split; [done|].
  apply sendable_app. by split.
Qed.

Lemma path_from_start_sendable (special file : bool) (text : string) :
  sendable (serialize_path (path_from_start special file text)).
Proof.
  apply serialize_path_sendable. unfold path_from_start.
  repeat case_match; try apply walk_sendable; constructor.
Qed.

Lemma path_from_sendable (special file : bool) (text : string) :
  sendable (serialize_path (path_from special file text)).
Proof. apply serialize_path_sendable, walk_sendable. constructor. Qed.

(** Whatever parses under a special scheme has a path that can be sent. *)
Lemma parse_hierarchy_sendable (scheme body : string) (a : Authority) (path : string) :
  is_special scheme = true →
  parse_hierarchy scheme body = Some (a, path) →
  sendable path.
Proof.
  intros Hspecial. unfold parse_hierarchy. rewrite Hspecial.
  intros Hparse.
  repeat (case_match; simplify_option_eq);
    auto using path_from_start_sendable, path_from_sendable.
Qed.

Lemma scheme_of_protocol (scheme name : string) :
  scheme +:+ ":" = name +:+ ":" → scheme = name.
Proof.
  revert name. induction scheme as [|c scheme IH]; intros [|d name]; simpl; try done.
  - intros [= _ Hname]. by destruct name.
  - intros [= _ Hscheme]. by destruct scheme.
  - intros [= -> Hrest]. f_equal. by apply IH.
Qed.

Lemma special_protocol (scheme : string) :
  scheme +:+ ":" ∈ ["http:"; "https:"; "ftp:"; "ws:"; "wss:"; "file:"] →
  is_special scheme = true.
Proof.
  rewrite !elem_of_cons, elem_of_nil.
  intros [Hs | [Hs | [Hs | [Hs | [Hs | [Hs | []]]]]]].
  - by rewrite (scheme_of_protocol scheme "http" Hs).
  - by rewrite (scheme_of_protocol scheme "https" Hs).
  - by rewrite (scheme_of_protocol scheme "ftp" Hs).
  - by rewrite (scheme_of_protocol scheme "ws" Hs).
  - by rewrite (scheme_of_protocol scheme "wss" Hs).
  - by rewrite (scheme_of_protocol scheme "file" Hs).
Qed.

(** Under the schemes that have an authority of their own, whatever the
    parser accepts has a path and query the client modules accept. *)
Lemma new_URL_sendable (input : string) (url : URL.t) :
  new_URL input = Js.Normal url →
  URL.protocol url ∈ ["http:"; "https:"; "ftp:"; "ws:"; "wss:"; "file:"] →
  sendable (URL.pathname url +:+ URL.search url).
Proof.
  unfold new_URL. intros Hparse.
  repeat (case_match; simplify_option_eq); simpl;
    intros Hspecial%special_protocol; try congruence;
    (apply sendable_app; split; [by eapply parse_hierarchy_sendable|]);
    first [done | apply (sendable_app "?"); split; [done | apply sendable_special_query]].
Qed.

End UrlFacts.

(** ** The handler on the [Node] platform *)

Module NodeFacts.
Import Node ServerResponse Relay Scenario.

Ltac run := vm_compute; reflexivity.

Lemma play_a_example_sends (range : option string) :
  range = None ∨ range = Some "" →
  sends (play "http://a.example/video.mp4" range) at_a_example to_a_example.
Proof. intros [-> | ->]; repeat split; run. Qed.

(** An [http:] or [https:] URL that parses is always sent. *)
Lemma web_url_is_sent (req : Request.t) (parsed : URL.t) :
  resolves req parsed →
  URL.protocol parsed = "http:" ∨ URL.protocol parsed = "https:" →
  ∃ proxyReq, sends req parsed proxyReq.
Proof.
  intros Hreq Hscheme.
  assert (sendable (URL.pathname parsed +:+ URL.search parsed)) as Hpath.
  { destruct Hreq as [_ Htarget]. unfold target in Htarget. simpl in Htarget.
    destruct (decodeURIComponent _) as [decodedUrl|]; [|done].
    apply (UrlFacts.new_URL_sendable decodedUrl); [done|].
    destruct Hscheme as [-> | ->]; by apply (bool_decide_unpack _). }
  exists (ClientRequest.mk (client_for parsed) "GET" (options parsed req)).
  split; [done|]. apply RelayFacts.request_normal. split; [|done].
  unfold options. by destruct (Js.truthy_opt _).
Qed.

(** *** Redirects *)

(** C1 as stated fails: [a.example] answers 302 with a Location at
    [b.example]; the relay sends nothing to [b.example], and what the
    inbound client receives is a 302, not the content. *)
Lemma C1_counterexample :
  let exchange := handler moved (play "http://a.example/video.mp4" None) in
  moved to_a_example = respond 302 [("location", "http://b.example/real.mp4")] ""
  ∧ Exchange.outbound exchange = [to_a_example]
  ∧ statusCode (Exchange.response exchange) = 302
  ∧ headers (Exchange.response exchange) !! "Location"
    = Some "/video-proxy?url=http%3A%2F%2Fb.example%2Freal.mp4".
Proof. repeat split; run. Qed.

Lemma C1_witness :
  let req := play "http://a.example/video.mp4" None in
  sends req at_a_example to_a_example
  ∧ Exchange.outbound (handler moved req) = [to_a_example]
  ∧ statusCode (Exchange.response (handler moved req)) = 302
  ∧ headers (Exchange.response (handler moved req)) !! "Location"
    = Some ("/video-proxy?url=" +:+ encodeURIComponent "http://b.example/real.mp4")
  ∧ body (Exchange.response (handler moved req))
    = RedirectNotice
        ("/video-proxy?url=" +:+ encodeURIComponent "http://b.example/real.mp4").
Proof.
  intros req.
  assert (sends req at_a_example to_a_example) as Hsends
    by (apply play_a_example_sends; by left).
  split; [exact Hsends|].
  refine (RelayFacts.C1_redirect_is_handed_to_the_client moved req at_a_example
            to_a_example
            (IncomingMessage.mk 302
               (list_to_map [("location", "http://b.example/real.mp4")]) "")
            "http://b.example/real.mp4" Hsends _ _ _ _).
  - run.
  - by apply (bool_decide_unpack _).
  - run.
  - discriminate.
Defined.

(** The content arrives once the client has followed the redirect. *)
Example moved_followed :
  Browser.follow 1 moved (encodeURIComponent "http://a.example/video.mp4") None =
    Exchange.mk [get http "b.example" "/real.mp4"]
      (ServerResponse.mk 200
         (list_to_map [("Content-Type", "video/webm"); ("Accept-Ranges", "bytes");
                       ("Content-Length", "7")])
         (Stream "content"))
      None.
Proof. run. Qed.






(** *** Invalid input *)

(** C3 does not hold of the code. Of [url=http%253A%2F%2Fa.example%2Fvideo.mp4]
    the query parser makes [http%3A//a.example/video.mp4], which is no
    absolute URL: [new URL] throws on it. The handler decodes the value
    once more before it parses it, obtains [http://a.example/video.mp4],
    and sends a request there; the answer is the origin's 200, not a 400. *)
Theorem C3_value_that_is_no_url_is_sent :
  let req :=
    Express.get_video_proxy (Some "http%253A%2F%2Fa.example%2Fvideo.mp4") None in
  Request.query_url req = Some "http%3A//a.example/video.mp4"
  ∧ new_URL "http%3A//a.example/video.mp4" = Js.Throw Js.TypeError
  ∧ handler anywhere req =
      Exchange.mk [to_a_example]
        (ServerResponse.mk 200
           (list_to_map [("Content-Type", "text/plain"); ("Accept-Ranges", "bytes")])
           (Stream "served"))
        None.
Proof. repeat split; run. Qed.

(** A value that is no URL after the handler's decoding either. *)
Example not_a_url :
  handler anywhere (play "not-a-url" None) = bad_request.
Proof. run. Qed.

(** No [url] at all, and an empty one. *)
Example no_url :
  handler anywhere (Express.get_video_proxy None None) = bad_request
  ∧ handler anywhere (Express.get_video_proxy (Some "") None) = bad_request.
Proof. split; run. Qed.

(** A URL that parses, with a path the client module turns down. *)
Example blank_in_opaque_path :
  new_URL "x:a b" = Js.Normal (URL.mk "x:" "" "" "" "" "a b" "" "")
  ∧ handler anywhere (play "x:a b" None) = bad_request.
Proof. split; run. Qed.

(** A [%] that starts no escape makes [decodeURIComponent] throw. *)
Example bare_percent_is_caught :
  decodeURIComponent "http://a.example/100%" = Js.Throw Js.URIError
  ∧ handler anywhere (Request.mk (Some "http://a.example/100%") None) = bad_request.
Proof. split; run. Qed.

(** An origin that answers with status 99: the response callback throws,
    outside the [try] block. *)
Lemma C10_witness :
  let req := Request.mk (Some "http://odd.example/v.mp4") None in
  sends req at_odd_example (get http "odd.example" "/v.mp4")
  ∧ odd (get http "odd.example" "/v.mp4") = OnResponse (IncomingMessage.mk 99 ∅ "")
  ∧ Exchange.outbound (handler odd req) = [get http "odd.example" "/v.mp4"]
  ∧ Exchange.uncaught (handler odd req) = Some Js.RangeError
  ∧ body (Exchange.response (handler odd req)) = Open.
Proof.
  intros req.
  assert (sends req at_odd_example (get http "odd.example" "/v.mp4")) as Hsends
    by (repeat split; run).
  assert (odd (get http "odd.example" "/v.mp4") = OnResponse (IncomingMessage.mk 99 ∅ ""))
    as Hup by run.
  split; [exact Hsends|]. split; [exact Hup|].
  refine (proj1 (proj2 (RelayFacts.C10_callback_exception_escapes odd
                          "http://odd.example/v.mp4" None))
            at_odd_example _ (IncomingMessage.mk 99 ∅ "") Hsends Hup _ _).
  - intros [Hcode _]. revert Hcode. by apply (bool_decide_unpack _).
  - unfold relayable. simpl. lia.
Defined.

(** *** Upstream failure *)

Lemma C8_witness :
  let req := play "http://a.example/video.mp4" None in
  sends req at_a_example to_a_example
  ∧ refused to_a_example = OnError ECONNREFUSED
  ∧ handler refused req = Exchange.mk [to_a_example] bad_gateway None.
Proof.
  intros req.
  assert (sends req at_a_example to_a_example) as Hsends
    by (apply play_a_example_sends; by left).
  split; [exact Hsends|]. split; [done|].
  by apply (proj1 (RelayFacts.C8_upstream_error_is_502 refused req at_a_example
                     to_a_example Hsends) ECONNREFUSED).
Defined.

(** C8 as stated fails for a timeout: the origin takes the request and
    never answers; no event arrives, and the relay writes nothing to the
    inbound response, a 502 no more than anything else. *)
Lemma C8_counterexample :
  let exchange := handler silent (play "http://a.example/video.mp4" None) in
  silent to_a_example = Silence
  ∧ exchange = Exchange.mk [to_a_example] fresh None
  ∧ body (Exchange.response exchange) = Open
  ∧ Exchange.response exchange ≠ bad_gateway.
Proof.
  assert (handler silent (play "http://a.example/video.mp4" None)
          = Exchange.mk [to_a_example] fresh None) as Hrun by run.
  intros exchange. subst exchange. rewrite Hrun.
  split; [done|]. split; [done|]. split; [done|]. discriminate.
Qed.

(** *** The outbound request *)

(** C5 as stated fails: the inbound request carries a [Range] header, with
    an empty value, and the outbound request has no [Range] header. *)
Lemma C5_counterexample :
  Request.headers_range (play "http://a.example/video.mp4" (Some "")) = Some ""
  ∧ Exchange.outbound (handler anywhere (play "http://a.example/video.mp4" (Some "")))
    = [to_a_example]
  ∧ Opts.headers (ClientRequest.opts to_a_example) !! "Range" = None.
Proof. repeat split; run. Qed.

Lemma C5_witness :
  let req := play "http://a.example/video.mp4" (Some "bytes=100-199") in
  sends req at_a_example to_a_example_ranged
  ∧ Exchange.outbound (handler anywhere req) = [to_a_example_ranged]
  ∧ ClientRequest.method to_a_example_ranged = "GET"
  ∧ Opts.headers (ClientRequest.opts to_a_example_ranged) !! "Range"
    = Some "bytes=100-199".
Proof.
  intros req.
  assert (sends req at_a_example to_a_example_ranged) as Hsends by (repeat split; run).
  split; [exact Hsends|].
  destruct (RelayFacts.C5_outbound_request_headers anywhere req at_a_example
              to_a_example_ranged Hsends)
    as (Hout & Hmethod & _ & _ & _ & Hrange & _).
  split; [exact Hout|]. split; [exact Hmethod|].
  by apply Hrange.
Defined.



(** A [file:] URL fares the same, with an empty host name. *)
Example file_url_goes_out :
  Exchange.outbound (handler anywhere (play "file:///etc/passwd" None)) =
    [get http "" "/etc/passwd"].
Proof. run. Qed.

(** A port that is the default of the URL's own scheme is not in the
    [port] property: the request goes to port 80. *)
Example default_port_of_the_scheme_is_dropped :
  new_URL "ftp://example.com:21/file.mp4" = Js.Normal at_ftp_example
  ∧ Exchange.outbound (handler anywhere (play "ftp://example.com:21/file.mp4" None))
    = [get http "example.com" "/file.mp4"]
  ∧ Exchange.outbound (handler anywhere (play "wss://example.com:443/file.mp4" None))
    = [get http "example.com" "/file.mp4"].
Proof. repeat split; run. Qed.


(** *** The response callback *)

Lemma partial_content_is_content : ¬ redirects partial_content.
Proof. intros [Hcode _]. revert Hcode. by apply (bool_decide_unpack _). Qed.

Lemma partial_content_is_relayable : relayable partial_content.
Proof. unfold relayable. simpl. lia. Qed.

Lemma C4_witness :
  let req := play "http://media.example/clip.webm" (Some "bytes=100-199") in
  let res := Exchange.response (handler ranged req) in
  sends req at_media_example to_media_example_ranged
  ∧ ranged to_media_example_ranged = OnResponse partial_content
  ∧ ¬ redirects partial_content
  ∧ relayable partial_content
  ∧ Exchange.uncaught (handler ranged req) = None
  ∧ statusCode res = 206
  ∧ headers res !! "Content-Type" = Some "video/webm"
  ∧ headers res !! "Accept-Ranges" = Some "bytes"
  ∧ headers res !! "Content-Length" = Some "100"
  ∧ headers res !! "Content-Range" = Some "bytes 100-199/1000"
  ∧ body res = Stream "one hundred bytes".
Proof.
  intros req res.
  assert (sends req at_media_example to_media_example_ranged) as Hsends
    by (repeat split; run).
  assert (ranged to_media_example_ranged = OnResponse partial_content) as Hup by run.
  split; [exact Hsends|]. split; [exact Hup|].
  split; [exact partial_content_is_content|].
  split; [exact partial_content_is_relayable|].
  destruct (proj1 (RelayFacts.C4_content_response ranged req at_media_example
                     to_media_example_ranged partial_content
                     Hsends Hup partial_content_is_content)
              partial_content_is_relayable)
    as (Hcaught & Hstatus & Htype & _ & Hranges & Hlength & Hrange & Hbody).
  split; [exact Hcaught|].
  split; [exact Hstatus|].
  split; [by apply Htype|].
  split; [exact Hranges|].
  split; [by apply Hlength|].
  split; [by apply Hrange|].
  exact Hbody.
Defined.

(** C4 as stated fails: the upstream supplies [Content-Range] and
    [Content-Type], both with an empty value; the inbound response has no
    [Content-Range], and its [Content-Type] is the default, not a copy. *)
Lemma C4_counterexample :
  let req := play "http://media.example/clip.webm" None in
  blank (get http "media.example" "/clip.webm")
    = respond 206 [("content-type", ""); ("content-range", "")] "bytes"
  ∧ handler blank req =
      Exchange.mk [get http "media.example" "/clip.webm"]
        (ServerResponse.mk 206
           (list_to_map [("Content-Type", "video/mp4"); ("Accept-Ranges", "bytes")])
           (Stream "bytes"))
        None.
Proof. split; run. Qed.

(** *** Decoding *)

(** C7 does not hold of the code: the value is decoded twice, once by the
    query parser and once more by the handler. The target
    [http://media.example/a%3Fb.mp4], percent-encoded once, decodes back to
    itself and its path is [/a%3Fb.mp4]; the request that goes out asks for
    [/a?b.mp4]. Likewise the path [/100%25.mp4] goes out as [/100%.mp4]. *)
Theorem C7_url_is_decoded_twice :
  decodeURIComponent (encodeURIComponent "http://media.example/a%3Fb.mp4")
    = Js.Normal "http://media.example/a%3Fb.mp4"
  ∧ new_URL "http://media.example/a%3Fb.mp4"
    = Js.Normal (URL.mk "http:" "" "" "media.example" "" "/a%3Fb.mp4" "" "")
  ∧ Exchange.outbound (handler anywhere (play "http://media.example/a%3Fb.mp4" None))
    = [get http "media.example" "/a?b.mp4"]
  ∧ new_URL "http://media.example/100%25.mp4"
    = Js.Normal (URL.mk "http:" "" "" "media.example" "" "/100%25.mp4" "" "")
  ∧ Exchange.outbound (handler anywhere (play "http://media.example/100%25.mp4" None))
    = [get http "media.example" "/100%.mp4"].
Proof. repeat split; run. Qed.

(** A target with a bare [%], which parses as a URL when decoded once, is
    answered with 400: the second decoding throws. *)
Example bare_percent_is_refused :
  new_URL "http://media.example/100%.mp4"
    = Js.Normal (URL.mk "http:" "" "" "media.example" "" "/100%.mp4" "" "")
  ∧ handler anywhere (play "http://media.example/100%.mp4" None) = bad_request.
Proof. split; run. Qed.

(** The example the claim gives, [%20], comes through: the second decoding
    turns it into a space, and the URL parser escapes the space again. *)
Example escaped_space_survives :
  Exchange.outbound (handler anywhere (play "http://media.example/a%20b.mp4" None))
    = [get http "media.example" "/a%20b.mp4"].
Proof. run. Qed.

End NodeFacts.

(** * Further properties *)

(** ** Encoding and decoding compose *)

Module RoundTripFacts.
Import Node Unicode.

Lemma unreserved_is_ascii (c : ascii) : unreserved c = true → (code c <? 0x80)%N = true.
Proof. destruct c as [[] [] [] [] [] [] [] []]; by vm_compute. Qed.

(** The states reached inside a sequence expect bytes from 0x80 on. *)
Definition inside (st : Utf8) : Prop :=
  match st with
  | Boundary => True
  | More _ lo _ => (0x80 <=? lo)%N = true
  end.

Lemma lead_inside (b : N) (st : Utf8) : lead b = Some st → inside st.
Proof. unfold lead. repeat case_match; by intros [= <-]. Qed.

Lemma after_continuation_inside (k : nat) : inside (after_continuation k).
Proof. by destruct k as [|[|k]]. Qed.

Lemma assemble_scanned (st : Utf8) (s : string) :
  inside st → scan st s = true →
  assemble st (map token (String.list_ascii_of_string s)) = Some s.
Proof.
  revert st. induction s as [|c s IH]; intros st Hst Hscan.
  - by destruct st.
  - cbn [String.list_ascii_of_string map]. destruct st as [|k lo hi]; simpl in Hscan.
    + destruct (lead (code c)) as [st'|] eqn:Hlead; [|done].
      pose proof (lead_inside _ _ Hlead) as Hst'.
      unfold token at 1. destruct (unreserved c) eqn:Hc; cbn [assemble].
      * apply unreserved_is_ascii in Hc.
        unfold lead in Hlead. rewrite Hc in Hlead. injection Hlead as <-.
        by rewrite (IH Boundary Hst' Hscan).
      * rewrite Hlead. unfold code. rewrite ascii_N_embedding.
        by rewrite (IH st' Hst' Hscan).
    + apply andb_true_iff in Hscan as [Hrange Hscan].
      assert (unreserved c = false) as Hc.
      { destruct (unreserved c) eqn:Hc; [|done].
        apply unreserved_is_ascii in Hc. simpl in Hst.
        apply andb_true_iff in Hrange as [Hlo _].
        apply N.leb_le in Hst, Hlo. apply N.ltb_lt in Hc. lia. }
      unfold token at 1. rewrite Hc. cbn [assemble]. rewrite Hrange.
      unfold code. rewrite ascii_N_embedding.
      by rewrite (IH _ (after_continuation_inside k) Hscan).
Qed.

(** [decodeURIComponent] undoes [encodeURIComponent] on every text. *)
Lemma decode_encode_well_formed (s : string) :
  well_formed s → decodeURIComponent (encodeURIComponent s) = Js.Normal s.
Proof.
  intros Hs. unfold decodeURIComponent.
  rewrite CodecFacts.unescape_encodeURIComponent. simpl.
  by rewrite (assemble_scanned Boundary s I Hs).
Qed.

(** So does the query parser. *)
Lemma query_decode_encode (s : string) :
  well_formed s → Express.decode (encodeURIComponent s) = s.
Proof.
  intros Hs. unfold Express.decode. simpl.
  by rewrite CodecFacts.encoded_has_no_plus, (decode_encode_well_formed _ Hs).
Qed.

(** Text without a percent sign decodes to itself. *)
Lemma unescape_plain (s : string) :
  plain s → unescape s = Some (map Lit (String.list_ascii_of_string s)).
Proof.
  unfold plain, any. rewrite negb_false_iff.
  induction s as [|c s IH]; [done|].
  cbn [all]. intros [Hc Hs]%andb_true_iff. apply negb_true_iff in Hc.
  cbn [String.list_ascii_of_string map].
  assert (unescape (String c s) = cons (Lit c) <$> unescape s) as ->.
  { destruct c as [[] [] [] [] [] [] [] []]; done. }
  by rewrite (IH Hs).
Qed.

Lemma assemble_literals (s : string) :
  assemble Boundary (map Lit (String.list_ascii_of_string s)) = Some s.
Proof. induction s as [|c s IH]; [done|]. simpl in *. by rewrite IH. Qed.

Lemma decode_plain (s : string) : plain s → decodeURIComponent s = Js.Normal s.
Proof.
  intros Hs. unfold decodeURIComponent.
  rewrite (unescape_plain _ Hs). simpl. by rewrite assemble_literals.
Qed.

Lemma strip_prefix_app (prefix s : string) :
  Browser.strip_prefix prefix (prefix +:+ s) = Some s.
Proof.
  induction prefix as [|c prefix IH]; [done|].
  simpl. by rewrite Ascii.eqb_refl.
Qed.

End RoundTripFacts.

(** ** What the URL parser turns down *)

Module SchemeFacts.
Import Node.

Lemma append_assoc (a b c : string) : (a +:+ b) +:+ c = a +:+ b +:+ c.
Proof.
  induction a as [|x a IH]; [done|].
  change (String x ((a +:+ b) +:+ c) = String x (a +:+ b +:+ c)). by rewrite IH.
Qed.

Lemma rev_app_spec (s acc : string) : String.rev_app s acc = String.rev s +:+ acc.
Proof.
  unfold String.rev. revert acc. induction s as [|a s IH]; intros acc; [done|].
  simpl. rewrite (IH (String a "")), (IH (String a acc)).
  by rewrite append_assoc.
Qed.

Lemma rev_cons (c : ascii) (s : string) :
  String.rev (String c s) = String.rev s +:+ String c "".
Proof. unfold String.rev at 1. simpl. apply rev_app_spec. Qed.

Lemma rev_snoc (s : string) (c : ascii) :
  String.rev (s +:+ String c "") = String c (String.rev s).
Proof.
  assert (∀ acc, String.rev_app (s +:+ String c "") acc
                 = String c (String.rev_app s acc)) as Hacc.
  { induction s as [|a s IH]; intros acc; [done|]. simpl. apply IH. }
  apply Hacc.
Qed.

Lemma drop_while_snoc (p : ascii → bool) (s : string) (c : ascii) :
  p c = false → ∃ kept, drop_while p (s +:+ String c "") = kept +:+ String c "".
Proof.
  intros Hc. induction s as [|a s IH]; simpl.
  - rewrite Hc. by exists ""%string.
  - destruct (p a); [done|]. by exists (String a s).
Qed.

(** Trimming leaves a first character that is not trimmed where it is. *)
Lemma trim_head (p : ascii → bool) (c : ascii) (s : string) :
  p c = false → ∃ rest, trim p (String c s) = String c rest.
Proof.
  intros Hc. unfold trim. simpl. rewrite Hc, rev_cons.
  destruct (drop_while_snoc p (String.rev s) c Hc) as [kept ->].
  rewrite rev_snoc. eauto.
Qed.

Lemma without_head (p : ascii → bool) (c : ascii) (s : string) :
  p c = false → without p (String c s) = String c (without p s).
Proof. intros Hc. simpl. by rewrite Hc. Qed.

(** Without a base, the parser accepts nothing that begins with anything
    but a letter: a path, a query, a host without scheme. *)
Lemma new_URL_needs_scheme (c : ascii) (s : string) :
  (code c <=? 0x20)%N = false →
  is_alpha c = false →
  new_URL (String c s) = Js.Throw Js.TypeError.
Proof.
  intros Hblank Halpha. unfold new_URL.
  destruct (trim_head (fun c => (code c <=? 0x20)%N) c s Hblank) as [rest ->].
  assert (one_of (String "009" (String "010" (String "013" ""))) c = false) as Hc.
  { destruct c as [[] [] [] [] [] [] [] []]; try done; by vm_compute in Hblank. }
  rewrite (without_head _ c rest Hc).
  unfold parse_scheme. by rewrite Halpha.
Qed.

(** What decodes from text that begins with a slash begins with a slash. *)
Lemma decode_slash (s decoded : string) :
  decodeURIComponent (String "/" s) = Js.Normal decoded →
  ∃ rest, decoded = String "/" rest.
Proof.
  unfold decodeURIComponent. simpl.
  destruct (unescape s) as [ts|]; simpl; [|done].
  destruct (assemble Boundary ts) as [rest|]; simpl; [|done].
  intros [= <-]. eauto.
Qed.

End SchemeFacts.

(** ** From the page to the handler, and around a redirect *)

Module RelayExtras.
Import Node Unicode ServerResponse Relay.

(** X1. For an episode address that begins with [http://], what
    [playVideo] gives the video element leads to the relay, and the
    handler receives that address itself as [req.query.url]: the encoding
    applied by the script is undone by the query parser. *)
Theorem X1_played_address_reaches_the_handler (url : string) (range : option string) :
  well_formed url →
  String.prefix "http://" url = true →
  Page.fetched_through_relay (Page.video_src url) range
  = Some (Request.mk (Some url) range).
Proof.
  intros Hurl Hprefix. unfold Page.video_src, Page.fetched_through_relay.
  rewrite Hprefix, RoundTripFacts.strip_prefix_app. simpl.
  unfold Express.get_video_proxy. simpl.
  by rewrite (RoundTripFacts.query_decode_encode _ Hurl).
Qed.

(** X2. For an address without a percent sign, the handler's own decoding
    changes nothing: the request succeeds in naming a URL exactly when
    [new URL] accepts the address, and then it is that URL. *)
Theorem X2_plain_address_is_parsed_as_it_is
    (url : string) (range : option string) (parsed : URL.t) :
  well_formed url → plain url → url ≠ "" →
  resolves (Scenario.play url range) parsed ↔ new_URL url = Js.Normal parsed.
Proof.
  intros Hurl Hplain Hne. unfold Scenario.play, Express.get_video_proxy. simpl.
  rewrite (RoundTripFacts.query_decode_encode _ Hurl).
  unfold resolves, target. simpl.
  rewrite (RoundTripFacts.decode_plain _ Hplain). simpl.
  apply JsFacts.truthy_true in Hne. rewrite Hne. tauto.
Qed.

Section redirects.
Context `{Accepts.t}.

Lemma follow_location
    (upstream : Upstream) (raw : string) (range : option string)
    (parsed : URL.t) (proxyReq : ClientRequest.t) (proxyRes : IncomingMessage.t)
    (location : string) (hops : nat) :
  sends (Express.get_video_proxy (Some raw) range) parsed proxyReq →
  upstream proxyReq = OnResponse proxyRes →
  IncomingMessage.statusCode proxyRes ∈ [301; 302; 307; 308] →
  IncomingMessage.headers proxyRes !! "location" = Some location →
  location ≠ "" →
  Browser.follow (S hops) upstream raw range
  = Browser.follow hops upstream (encodeURIComponent location) range.
Proof.
  intros Hsends Hup Hcode Hlocation Hne.
  apply BrowserFacts.follow_redirected.
  rewrite (RelayFacts.handler_redirect _ _ _ _ _ _ Hsends Hup Hcode Hlocation Hne).
  unfold Browser.redirected_to. cbn [Exchange.response].
  match goal with
  | |- context [redirect ?address fresh] =>
      destruct (RelayFacts.redirect_location address fresh) as (Hstatus & Hheader & _)
  end.
  rewrite Hstatus, Hheader. done.
Qed.

(** X3. When the upstream answers with a redirect, the client that follows
    the relay's 302 comes back with the upstream's Location as
    [req.query.url], unchanged. *)
Theorem X3_followed_redirect_carries_the_location
    (upstream : Upstream) (raw : string) (range : option string)
    (parsed : URL.t) (proxyReq : ClientRequest.t) (proxyRes : IncomingMessage.t)
    (location : string) (hops : nat) :
  sends (Express.get_video_proxy (Some raw) range) parsed proxyReq →
  upstream proxyReq = OnResponse proxyRes →
  IncomingMessage.statusCode proxyRes ∈ [301; 302; 307; 308] →
  IncomingMessage.headers proxyRes !! "location" = Some location →
  location ≠ "" →
  well_formed location →
  Browser.follow (S hops) upstream raw range
  = Browser.follow hops upstream (encodeURIComponent location) range
  ∧ Express.get_video_proxy (Some (encodeURIComponent location)) range
    = Request.mk (Some location) range.
Proof.
  intros Hsends Hup Hcode Hlocation Hne Hwf. split.
  - by eapply follow_location.
  - unfold Express.get_video_proxy. simpl.
    by rewrite (RoundTripFacts.query_decode_encode _ Hwf).
Qed.

(** An address that begins with a slash is answered 400. *)
Lemma handler_relative (upstream : Upstream) (rest : string) (range : option string) :
  handler upstream (Request.mk (Some (String "/" rest)) range) = bad_request.
Proof.
  assert (∃ e, target (Request.mk (Some (String "/" rest)) range) = Js.Throw e)
    as [e Hthrow].
  { unfold target. simpl.
    change (Platform.decodeURIComponent (String "/" rest))
      with (decodeURIComponent (String "/" rest)).
    destruct (decodeURIComponent (String "/" rest)) as [decoded|e] eqn:Hdecode;
      [|by exists e].
    apply SchemeFacts.decode_slash in Hdecode as [tail ->].
    exists Js.TypeError. simpl. by apply SchemeFacts.new_URL_needs_scheme. }
  by eapply RelayFacts.handler_throw.
Qed.

(** X4. A redirect whose Location is relative, beginning with a slash, cannot
    be followed through the relay: the Location is handed on as it stands,
    not resolved against the address that was asked, and the client that
    follows the relay's 302 is answered 400. *)
Theorem X4_relative_location_ends_in_400
    (upstream : Upstream) (raw : string) (range : option string)
    (parsed : URL.t) (proxyReq : ClientRequest.t) (proxyRes : IncomingMessage.t)
    (path : string) (hops : nat) :
  sends (Express.get_video_proxy (Some raw) range) parsed proxyReq →
  upstream proxyReq = OnResponse proxyRes →
  IncomingMessage.statusCode proxyRes ∈ [301; 302; 307; 308] →
  IncomingMessage.headers proxyRes !! "location" = Some (String "/" path) →
  well_formed (String "/" path) →
  Browser.follow (S hops) upstream raw range = bad_request.
Proof.
  intros Hsends Hup Hcode Hlocation Hwf.
  rewrite (follow_location _ _ _ _ _ _ _ hops Hsends Hup Hcode Hlocation) by done.
  assert (handler upstream
            (Express.get_video_proxy (Some (encodeURIComponent (String "/" path))) range)
          = bad_request) as Hanswer.
  { pose proof (RoundTripFacts.query_decode_encode _ Hwf) as Hdecode.
    unfold Express.get_video_proxy.
    generalize dependent (encodeURIComponent (String "/" path)).
    intros encoded Hdecode. simpl. rewrite Hdecode. apply handler_relative. }
  rewrite BrowserFacts.follow_settled; [done|]. by rewrite Hanswer.
Qed.

End redirects.

End RelayExtras.

(** ** What the relay lets through *)

Module HandlerFacts.
Import Platform ServerResponse Relay.

Section facts.
Context `{Platform.t} `{Accepts.t}.

(** X16. A request whose [url] parameter is missing, is empty, or fails to
    decode or to parse inside the handler, that is after the handler's own
    [decodeURIComponent], is answered with status 400, no header and no
    body; no outbound request is issued for it and nothing is thrown. *)
Theorem X16_url_the_handler_cannot_parse_is_400 (upstream : Upstream) (req : Request.t) :
  Request.query_url req = None
  ∨ Request.query_url req = Some ""
  ∨ (∃ e, target req = Js.Throw e) →
  Exchange.response (handler upstream req) = ServerResponse.mk 400 ∅ Empty
  ∧ Exchange.outbound (handler upstream req) = []
  ∧ Exchange.uncaught (handler upstream req) = None.
Proof. intros Hurl. by rewrite (RelayFacts.invalid_url_is_400 _ _ Hurl). Qed.


(** What the callback sets, on a response that had no header. *)
Lemma on_response_headers (proxyRes : IncomingMessage.t) (res : ServerResponse.t) :
  on_response proxyRes fresh = Js.Normal res →
  dom (headers res)
    ⊆ ({["Content-Type"; "Accept-Ranges"; "Content-Length"; "Content-Range";
         "Location"; "Vary"]} : gset string)
  ∧ (is_Some (headers res !! "Location") ∨ is_Some (headers res !! "Vary") →
     statusCode res = 302 ∧ ∃ address, body res = RedirectNotice address).
Proof.
  unfold on_response.
  destruct (includes _ _ && _).
  - intros [= <-]. unfold redirect. simpl. split; [|by eauto].
    destruct Accepts.accepts as [[]|]; rewrite !dom_insert_L, dom_empty_L;
      intros name; rewrite !elem_of_union, !elem_of_singleton, elem_of_empty; tauto.
  - unfold status. destruct (_ && _); simpl; [|done].
    intros [= <-].
    destruct (Js.truthy_opt (_ !! "content-length")),
             (Js.truthy_opt (_ !! "content-range")); simpl;
      rewrite !dom_insert_L, dom_empty_L;
      (split;
       [ intros name; rewrite !elem_of_union, !elem_of_singleton, elem_of_empty; tauto
       | rewrite !lookup_insert_ne by done; rewrite lookup_empty;
         by intros [[? ?] | [? ?]] ]).
Qed.

(** X6. Whatever the upstream sends, the only headers the handler puts on
    the inbound response are Content-Type, Accept-Ranges, Content-Length
    and Content-Range, and, with its own redirect, Location and Vary: no
    other upstream header is passed on. A Location is only ever the
    relay's own, on its 302 with the notice; the Location of an upstream
    response that is relayed as content is dropped. *)
Theorem X6_only_relay_headers_are_set (upstream : Upstream) (req : Request.t) :
  let res := Exchange.response (handler upstream req) in
  dom (headers res)
    ⊆ ({["Content-Type"; "Accept-Ranges"; "Content-Length"; "Content-Range";
         "Location"; "Vary"]} : gset string)
  ∧ (is_Some (headers res !! "Location") ∨ is_Some (headers res !! "Vary") →
     statusCode res = 302 ∧ ∃ address, body res = RedirectNotice address).
Proof.
  assert (∀ res : ServerResponse.t, headers res = ∅ →
            dom (headers res)
              ⊆ ({["Content-Type"; "Accept-Ranges"; "Content-Length"; "Content-Range";
                   "Location"; "Vary"]} : gset string)
            ∧ (is_Some (headers res !! "Location") ∨ is_Some (headers res !! "Vary") →
               statusCode res = 302 ∧ ∃ address, body res = RedirectNotice address))
    as Hbare.
  { intros res ->. split; [by rewrite dom_empty_L|].
    rewrite !lookup_empty. by intros [[? ?] | [? ?]]. }
  destruct (RelayFacts.handler_cases upstream req)
    as [Hbad | (parsed & proxyReq & Hsends & _)].
  - rewrite Hbad. by apply Hbare.
  - rewrite (RelayFacts.handler_sends _ _ _ _ Hsends). unfold outcome, settle.
    destruct (upstream proxyReq) as [proxyRes|e|].
    + destruct (on_response proxyRes fresh) as [res|e] eqn:Hcallback;
        [by apply (on_response_headers proxyRes) | by apply Hbare].
    + by apply Hbare.
    + by apply Hbare.
Qed.

End facts.
End HandlerFacts.

(** ** The listing of the catalog *)

Module NumberFacts.
Import Number.

(** Rounding changes nothing below 2^53, and what lies beyond stays there. *)
Lemma round_cases (z : Z) :
  ((Z.abs z < 2 ^ 53)%Z ∧ round z = Finite z)
  ∨ ((2 ^ 53 ≤ z)%Z
     ∧ (round z = Infinity false ∨ ∃ w, round z = Finite w ∧ (2 ^ 53 ≤ w)%Z))
  ∨ ((z ≤ - 2 ^ 53)%Z
     ∧ (round z = Infinity true ∨ ∃ w, round z = Finite w ∧ (w ≤ - 2 ^ 53)%Z)).
Proof.
  unfold round.
  destruct (Z.ltb_spec (Z.abs z) (2 ^ 53)) as [Hsmall|Hbig]; [by left|].
  right.
  set (size := Z.abs z) in *.
  set (e := (Z.log2 size - 52)%Z).
  assert (0 < size)%Z as Hpos by lia.
  pose proof (Z.log2_spec size Hpos) as [Hlow Hhigh].
  assert (53 ≤ Z.log2 size)%Z as Hlog.
  { apply Z.log2_le_pow2; lia. }
  assert (1 ≤ e)%Z as He by (subst e; lia).
  assert (2 ^ Z.log2 size = 2 ^ 52 * 2 ^ e)%Z as Hsplit.
  { rewrite <- Z.pow_add_r by lia. f_equal. subst e. lia. }
  assert (0 < 2 ^ e)%Z as Hpow by (apply Z.pow_pos_nonneg; lia).
  assert (2 ^ 52 ≤ size / 2 ^ e)%Z as Hkept.
  { apply Z.div_le_lower_bound; [done|]. lia. }
  set (kept := (size / 2 ^ e)%Z) in *.
  match goal with
  | |- context [if ?tie then (kept + 1)%Z else kept] =>
      set (kept' := if tie then (kept + 1)%Z else kept)
  end.
  assert (kept ≤ kept')%Z as Hkept' by (subst kept'; case_match; lia).
  assert (2 ^ 53 ≤ kept' * 2 ^ e)%Z as Hresult.
  { assert (2 ^ 1 ≤ 2 ^ e)%Z by (apply Z.pow_le_mono_r; lia).
    change (2 ^ 53)%Z with (2 ^ 52 * 2 ^ 1)%Z. nia. }
  destruct (Z.leb_spec (2 ^ 1024) (kept' * 2 ^ e)) as [Hover|Hfits].
  - destruct (Z.ltb_spec z 0); [right | left]; (split; [lia | by left]).
  - destruct (Z.lt_total z 0) as [Hz | [Hz | Hz]]; [right | lia | left].
    + split; [lia|]. right. eexists. split; [done|].
      rewrite Z.sgn_neg by done. lia.
    + split; [lia|]. right. eexists. split; [done|].
      rewrite Z.sgn_pos by done. lia.
Qed.

Lemma round_small (z : Z) : (Z.abs z < 2 ^ 53)%Z → round z = Finite z.
Proof.
  intros Hz. destruct (round_cases z) as [[_ ?] | [[? _] | [? _]]]; [done | lia..].
Qed.

Lemma or_default_falsy (a : t) (d : Z) :
  a = NaN ∨ a = Finite 0 → or_default a d = Finite d.
Proof. by intros [-> | ->]. Qed.

Lemma or_default_nonzero (a : t) (d : Z) :
  d ≠ 0%Z → or_default a d ≠ Finite 0 ∧ or_default a d ≠ NaN.
Proof.
  intros Hd. unfold or_default.
  destruct a as [|s|z]; simpl; [split; congruence | done |].
  destruct (Z.eqb_spec z 0); simpl; split; congruence.
Qed.

End NumberFacts.

Module ApiFacts.
Import Api.

Lemma swap_permutation {A} (i j : nat) (items : list A) : swap i j items ≡ₚ items.
Proof.
  unfold swap.
  destruct (items !! i) as [x|] eqn:Hi; [|done].
  destruct (items !! j) as [y|] eqn:Hj; [|done].
  apply Permutation_inj. split; [by rewrite !length_insert|].
  exists (fun k => if decide (k = i) then j else if decide (k = j) then i else k).
  split.
  - intros k1 k2. repeat case_decide; congruence.
  - intros k. apply lookup_lt_Some in Hi as Hi', Hj as Hj'.
    rewrite !list_lookup_insert, !length_insert.
    repeat case_decide; destruct_and?; simplify_eq; try done; try congruence;
      exfalso; intuition lia.
Qed.

Lemma shuffle_from_permutation {A} (i : nat) (pick : nat → nat) (items : list A) :
  shuffle_from i pick items ≡ₚ items.
Proof.
  revert items. induction i as [|i IH]; intros items; [done|].
  simpl. rewrite IH. apply swap_permutation.
Qed.

Lemma shuffle_permutation {A} (pick : nat → nat) (items : list A) :
  shuffle pick items ≡ₚ items.
Proof. apply shuffle_from_permutation. Qed.

Lemma slice_sublist {A} (start final : Number.t) (items : list A) :
  slice start final items `sublist_of` items.
Proof. unfold slice. etrans; [apply sublist_take | apply sublist_drop]. Qed.

Lemma slice_subseteq {A} (start final : Number.t) (items : list A) :
  slice start final items ⊆ items.
Proof. unfold slice. etrans; [apply subseteq_take | apply subseteq_drop]. Qed.

Lemma slice_length {A} (start final : Number.t) (items : list A) :
  length (slice start final items)
  = (relative (length items) final - relative (length items) start)
      `min` (length items - relative (length items) start).
Proof. unfold slice. by rewrite length_take, length_drop. Qed.

(** An index beyond 2^53 is past the end of every array. *)
Lemma relative_high (len : nat) (index : Number.t) :
  (Z.of_nat len ≤ 2 ^ 53)%Z →
  index = Number.Infinity false ∨ (∃ w, index = Number.Finite w ∧ (2 ^ 53 ≤ w)%Z) →
  relative len index = len.
Proof. intros Hlen [-> | (w & -> & Hw)]; simpl; [done|]. case_match; lia. Qed.

Lemma relative_low (len : nat) (index : Number.t) :
  (Z.of_nat len ≤ 2 ^ 53)%Z →
  index = Number.Infinity true ∨ (∃ w, index = Number.Finite w ∧ (w ≤ - 2 ^ 53)%Z) →
  relative len index = 0.
Proof. intros Hlen [-> | (w & -> & Hw)]; simpl; [done|]. case_match; lia. Qed.

Lemma add_high (index : Number.t) (size : Z) :
  (0 ≤ size)%Z →
  index = Number.Infinity false ∨ (∃ w, index = Number.Finite w ∧ (2 ^ 53 ≤ w)%Z) →
  Number.add index (Number.Finite size) = Number.Infinity false
  ∨ ∃ w, Number.add index (Number.Finite size) = Number.Finite w ∧ (2 ^ 53 ≤ w)%Z.
Proof.
  intros Hsize [-> | (w & -> & Hw)]; simpl; [by left|].
  destruct (NumberFacts.round_cases (w + size)) as [[? _] | [[_ ?] | [? _]]];
    [lia | done | lia].
Qed.

(** A page of positive size holds no more than its size. *)
Lemma page_length {A} (page : Number.t) (size : Z) (items : list A) :
  (Z.of_nat (length items) ≤ 2 ^ 53)%Z → (0 < size)%Z →
  let start := Number.mul page (Number.Finite size) in
  (length (slice start (Number.add start (Number.Finite size)) items)
   ≤ Z.to_nat size)%nat.
Proof.
  intros Hlen Hsize start. rewrite slice_length.
  set (len := length items) in *.
  destruct page as [|negative|p].
  - simpl. lia.
  - subst start. simpl. destruct (Z.eqb_spec size 0) as [?|_]; [lia|]. simpl.
    destruct (xorb negative _); simpl; lia.
  - subst start. simpl.
    destruct (NumberFacts.round_cases (p * size))
      as [[Hp ->] | [[Hp Hstart] | [Hp [-> | (w & -> & Hw)]]]].
    + simpl.
      destruct (NumberFacts.round_cases (p * size + size))
        as [[Hq ->] | [[Hq Hend] | [Hq Hend]]].
      * simpl. repeat case_match; lia.
      * rewrite (relative_high _ _ Hlen Hend). simpl. repeat case_match; lia.
      * rewrite (relative_low _ _ Hlen Hend). lia.
    + rewrite (relative_high _ _ Hlen Hstart). lia.
    + simpl. lia.
    + simpl.
      destruct (NumberFacts.round_cases (w + size))
        as [[Hq ->] | [[Hq Hend] | [Hq Hend]]].
      * simpl. repeat case_match; lia.
      * rewrite (relative_high _ _ Hlen Hend). simpl. repeat case_match; lia.
      * rewrite (relative_low _ _ Hlen Hend). lia.
Qed.

(** Without a finite limit a page is empty. *)
Lemma page_unbounded {A} (page : Number.t) (items : list A) :
  let start := Number.mul page (Number.Infinity false) in
  slice start (Number.add start (Number.Infinity false)) items = [].
Proof.
  intros start. apply nil_length_inv. rewrite slice_length. subst start.
  destruct page as [|[]|p]; simpl; try lia.
  destruct (Z.eqb_spec p 0); simpl; [lia|].
  destruct (Z.ltb_spec p 0); simpl; lia.
Qed.

(** The page [p] of size [size], counted from 0. *)
Lemma page_exact {A} (p size : nat) (items : list A) :
  (Z.of_nat (length items) ≤ 2 ^ 53)%Z →
  let start := Number.mul (Number.Finite (Z.of_nat p)) (Number.Finite (Z.of_nat size)) in
  let final := Number.add start (Number.Finite (Z.of_nat size)) in
  slice start final items = take size (drop (p * size) items)
  ∧ Number.lt final (Number.Finite (Z.of_nat (length items)))
    = bool_decide ((p + 1) * size < length items)%nat.
Proof.
  intros Hlen start final. subst final start. simpl.
  set (len := length items) in *.
  assert (∀ first last : nat,
            (first ≤ last)%nat → (first + size ≤ last ∨ len ≤ last)%nat →
            (last ≤ first + size)%nat →
            take (last `min` len - first `min` len) (drop (first `min` len) items)
            = take size (drop first items)) as Hpiece.
  { intros first last Horder Hlast Hsize. subst len.
    destruct (decide (length items ≤ first)%nat) as [Hout|Hin].
    - rewrite !drop_ge by lia. by rewrite !take_nil.
    - replace (first `min` length items)%nat with first by lia.
      destruct (decide (first + size ≤ length items)%nat) as [Hend|Hend].
      + f_equal. lia.
      + rewrite !take_ge; [done|rewrite length_drop; lia..]. }
  destruct (NumberFacts.round_cases (Z.of_nat p * Z.of_nat size))
    as [[Hp ->] | [[Hp Hstart] | [Hp _]]]; [| |lia].
  - simpl.
    destruct (NumberFacts.round_cases (Z.of_nat p * Z.of_nat size + Z.of_nat size))
      as [[Hq ->] | [[Hq Hend] | [Hq _]]]; [| |lia].
    + split.
      * unfold slice. fold len. simpl.
        destruct (Z.ltb_spec (Z.of_nat p * Z.of_nat size) 0) as [?|_]; [lia|].
        destruct (Z.ltb_spec (Z.of_nat p * Z.of_nat size + Z.of_nat size) 0)
          as [?|_]; [lia|].
        rewrite <- (Hpiece (p * size) (p * size + size))%nat by lia.
        f_equal; [|f_equal]; lia.
      * cbn [Number.lt].
        destruct (Z.ltb_spec (Z.of_nat p * Z.of_nat size + Z.of_nat size)
                    (Z.of_nat len));
          symmetry; [apply bool_decide_eq_true_2 | apply bool_decide_eq_false_2]; lia.
    + split.
      * unfold slice. fold len. rewrite (relative_high _ _ Hlen Hend). simpl.
        destruct (Z.ltb_spec (Z.of_nat p * Z.of_nat size) 0) as [?|_]; [lia|].
        rewrite <- (Hpiece (p * size) (len `max` (p * size)))%nat by lia.
        f_equal; [|f_equal]; lia.
      * rewrite bool_decide_eq_false_2 by lia.
        destruct Hend as [-> | (w & -> & Hw)]; simpl; [done|].
        apply Z.ltb_ge. lia.
  - pose proof (add_high _ (Z.of_nat size) ltac:(lia) Hstart) as Hend.
    split.
    + unfold slice. fold len.
      rewrite (relative_high _ _ Hlen Hstart), (relative_high _ _ Hlen Hend).
      rewrite Nat.sub_diag, take_0. symmetry.
      rewrite drop_ge by lia. by rewrite take_nil.
    + rewrite bool_decide_eq_false_2 by lia.
      destruct Hend as [-> | (w & -> & Hw)]; simpl; [done|].
      apply Z.ltb_ge. lia.
Qed.

(** From the start to a negative end: all but the last entries. *)
Lemma page_but_last {A} (k : Z) (items : list A) :
  (Z.of_nat (length items) ≤ 2 ^ 53)%Z → (0 < k)%Z →
  let start := Number.mul (Number.Finite 0) (Number.Finite (- k)) in
  let final := Number.add start (Number.Finite (- k)) in
  slice start final items = take (length items - Z.to_nat k) items
  ∧ Number.lt final (Number.Finite (Z.of_nat (length items))) = true.
Proof.
  intros Hlen Hk start final. subst final start.
  change (Number.mul (Number.Finite 0) (Number.Finite (- k))) with (Number.Finite 0).
  change (Number.add (Number.Finite 0) (Number.Finite (- k))) with (Number.round (- k)).
  unfold slice.
  assert (relative (length items) (Number.Finite 0) = 0%nat) as -> by (simpl; lia).
  rewrite Nat.sub_0_r, drop_0.
  destruct (NumberFacts.round_cases (- k)) as [[_ ->] | [[? _] | [Hbig Hend]]]; [|lia|].
  - simpl. destruct (Z.ltb_spec (- k) 0) as [_|?]; [|lia].
    split; [f_equal; lia | apply Z.ltb_lt; lia].
  - rewrite (relative_low _ _ Hlen Hend).
    replace (length items - Z.to_nat k)%nat with 0%nat by lia.
    split; [done|].
    destruct Hend as [-> | (w & -> & Hw)]; simpl; [done|]. apply Z.ltb_lt. lia.
Qed.

Lemma pages_concat {A} (size n : nat) (items : list A) :
  concat (map (fun p => take size (drop (p * size) items)) (seq 0 n))
  = take (n * size) items.
Proof.
  induction n as [|n IH]; [done|].
  rewrite seq_S, map_app, concat_app, IH. simpl. rewrite app_nil_r.
  rewrite take_take_drop. f_equal. lia.
Qed.

Section facts.
Context `{Builtins}.

Lemma matching_length (search : string) (items : list Series.t) :
  (length (matching search items) ≤ length items)%nat.
Proof. unfold matching. case_match; [apply length_filter | done]. Qed.

(** What is paged is an array when the catalog is one. *)
Lemma paged_length (SERIES_LIST : list Series.t) (pick : nat → nat) (query : Query.t) :
  array SERIES_LIST →
  let found := matching (search_of query) SERIES_LIST in
  (Z.of_nat (length found) ≤ 2 ^ 53)%Z
  ∧ (Z.of_nat (length (shuffle pick found)) ≤ 2 ^ 53)%Z.
Proof.
  intros Harray found. unfold array in Harray.
  pose proof (matching_length (search_of query) SERIES_LIST).
  assert (2 ^ 32 ≤ 2 ^ 53)%Z by (by apply Z.pow_le_mono_r).
  rewrite shuffle_permutation. subst found. lia.
Qed.

(** The answer in terms of the list that is paged. *)
Lemma series_paged (SERIES_LIST : list Series.t) (pick : nat → nat) (query : Query.t) :
  let paged :=
    if bool_decide (Query.random query = Some "true")
    then shuffle pick (matching (search_of query) SERIES_LIST)
    else matching (search_of query) SERIES_LIST in
  let page := Number.or_default (parseInt (Query.page query)) 0 in
  let start := Number.mul page (limit_of query) in
  series SERIES_LIST pick query
  = Listing.mk (length paged) page
      (Number.lt (Number.add start (limit_of query))
         (Number.Finite (Z.of_nat (length paged))))
      (slice start (Number.add start (limit_of query)) paged)
  ∧ paged ≡ₚ matching (search_of query) SERIES_LIST.
Proof.
  intros paged page start. split; [done|].
  subst paged. case_bool_decide; [apply shuffle_permutation | done].
Qed.

(** X8. Whether or not the list is shuffled, [total] is the number of
    entries the search keeps, and the entries of the answer are among
    them, none more often than the search keeps it. When the page takes
    them all in, page 0 with a limit that is finite and not below their
    number, the entries of the answer are the entries found, each as often,
    in some order: shuffling loses and repeats nothing. *)
Theorem X8_shuffling_keeps_the_entries
    (SERIES_LIST : list Series.t) (pick : nat → nat) (query : Query.t) :
  (∀ i, pick i ≤ i)%nat →
  let found := matching (search_of query) SERIES_LIST in
  let answer := series SERIES_LIST pick query in
  Listing.total answer = length found
  ∧ Listing.data answer ⊆+ found
  ∧ (array SERIES_LIST →
     parseInt (Query.page query) = Number.NaN
     ∨ parseInt (Query.page query) = Number.Finite 0 →
     ∀ limit : nat,
       limit_of query = Number.Finite (Z.of_nat limit) →
       (length found ≤ limit)%nat →
       Listing.data answer ≡ₚ found).
Proof.
  intros _ found answer. subst answer.
  destruct (series_paged SERIES_LIST pick query) as [-> Hpaged]. simpl.
  fold found in Hpaged |- *.
  split; [by apply Permutation_length|]. split.
  - etrans; [apply sublist_submseteq, slice_sublist|].
    by apply Permutation_submseteq.
  - intros Harray Hpage limit Hlimit Hall.
    rewrite (NumberFacts.or_default_falsy _ 0 Hpage), Hlimit.
    match goal with
    | |- slice _ _ ?paged ≡ₚ _ =>
        assert (Z.of_nat (length paged) ≤ 2 ^ 53)%Z as Hlen
    end.
    { rewrite (Permutation_length Hpaged).
      apply (paged_length SERIES_LIST pick query Harray). }
    destruct (page_exact 0 limit _ Hlen) as [Hdata _].
    change (Z.of_nat 0) with 0%Z in Hdata. rewrite Hdata. simpl.
    rewrite drop_0, take_ge; [done|]. by rewrite (Permutation_length Hpaged).
Qed.

(** X9. The limit is never zero and never NaN, since a missing,
    non-numeric or zero [limit] stands for 24. For a catalog that is an
    array, an answer never holds more entries than a positive limit,
    whatever the page, and holds none when the limit is infinite. *)
Theorem X9_page_size_is_bounded
    (SERIES_LIST : list Series.t) (pick : nat → nat) (query : Query.t) :
  (limit_of query ≠ Number.Finite 0 ∧ limit_of query ≠ Number.NaN)
  ∧ (parseInt (Query.limit query) = Number.NaN
     ∨ parseInt (Query.limit query) = Number.Finite 0 →
     limit_of query = Number.Finite 24)
  ∧ (array SERIES_LIST →
     (∀ limit : Z,
        limit_of query = Number.Finite limit → (0 < limit)%Z →
        (length (Listing.data (series SERIES_LIST pick query)) ≤ Z.to_nat limit)%nat)
     ∧ (limit_of query = Number.Infinity false →
        Listing.data (series SERIES_LIST pick query) = [])).
Proof.
  split; [by apply NumberFacts.or_default_nonzero|].
  split; [apply NumberFacts.or_default_falsy|].
  intros Harray.
  destruct (series_paged SERIES_LIST pick query) as [-> Hpaged]. simpl. split.
  - intros limit -> Hlimit. apply page_length; [|done].
    rewrite (Permutation_length Hpaged).
    apply (paged_length SERIES_LIST pick query Harray).
  - intros ->. apply page_unbounded.
Qed.

(** X12. A negative limit is not turned down. On the first page of a
    catalog that is an array, with shuffling off, a limit of [-k] answers
    with all the entries found but the last [k], and [hasMore] is true
    whatever the number of entries. *)
Theorem X12_negative_limit_drops_the_last_entries
    (SERIES_LIST : list Series.t) (pick : nat → nat) (query : Query.t) (k : nat) :
  array SERIES_LIST →
  parseInt (Query.page query) = Number.NaN
  ∨ parseInt (Query.page query) = Number.Finite 0 →
  Query.random query ≠ Some "true" →
  limit_of query = Number.Finite (- Z.of_nat k) →
  let found := matching (search_of query) SERIES_LIST in
  Listing.data (series SERIES_LIST pick query) = take (length found - k) found
  ∧ Listing.hasMore (series SERIES_LIST pick query) = true.
Proof.
  intros Harray Hpage Hrandom Hlimit found.
  assert (0 < k)%nat as Hk.
  { destruct (NumberFacts.or_default_nonzero (parseInt (Query.limit query)) 24)
      as [Hne _]; [done|].
    fold (limit_of query) in Hne. rewrite Hlimit in Hne.
    destruct k; [done | lia]. }
  destruct (series_paged SERIES_LIST pick query) as [-> _]. simpl.
  rewrite bool_decide_eq_false_2 by done. fold found.
  rewrite (NumberFacts.or_default_falsy _ 0 Hpage), Hlimit.
  destruct (page_but_last (Z.of_nat k) found) as [-> ->]; [|lia|].
  - apply (paged_length SERIES_LIST pick query Harray).
  - split; [|done]. f_equal. lia.
Qed.

(** X10. With shuffling off and a limit that is a positive integer, the
    pages 0, 1, ..., n-1 of one search in a catalog that is an array are
    consecutive pieces of the list of entries found: put end to end they
    are its first [n * limit] entries, nothing left out and nothing twice;
    and [hasMore] tells exactly whether entries remain after the page. *)
Theorem X10_pages_partition_the_entries
    (SERIES_LIST : list Series.t) (pick : nat → nat) (query : Query.t)
    (pages : nat → option string) (limit n : nat) :
  array SERIES_LIST →
  (∀ p, (p < n)%nat → parseInt (pages p) = Number.Finite (Z.of_nat p)) →
  Query.random query ≠ Some "true" →
  limit_of query = Number.Finite (Z.of_nat limit) →
  let found := matching (search_of query) SERIES_LIST in
  concat (map (fun p => Listing.data (series SERIES_LIST pick (on_page (pages p) query)))
            (seq 0 n))
  = take (n * limit) found
  ∧ ∀ p, (p < n)%nat →
      Listing.hasMore (series SERIES_LIST pick (on_page (pages p) query))
      = bool_decide ((p + 1) * limit < length found)%nat.
Proof.
  intros Harray Hpages Hrandom Hlimit found.
  assert (∀ p, (p < n)%nat →
            Listing.data (series SERIES_LIST pick (on_page (pages p) query))
            = take limit (drop (p * limit) found)
            ∧ Listing.hasMore (series SERIES_LIST pick (on_page (pages p) query))
              = bool_decide ((p + 1) * limit < length found)%nat) as Hpage.
  { intros p Hp.
    destruct (series_paged SERIES_LIST pick (on_page (pages p) query)) as [-> _].
    simpl. rewrite bool_decide_eq_false_2 by done.
    change (limit_of (on_page (pages p) query)) with (limit_of query).
    change (search_of (on_page (pages p) query)) with (search_of query).
    fold found. rewrite (Hpages p Hp), Hlimit.
    assert (Number.or_default (Number.Finite (Z.of_nat p)) 0 = Number.Finite (Z.of_nat p))
      as -> by (by destruct p).
    apply page_exact, (paged_length SERIES_LIST pick query Harray). }
  split.
  - rewrite <- pages_concat. f_equal.
    apply map_ext_in. intros p Hp%in_seq. apply Hpage. lia.
  - intros p Hp. by apply Hpage.
Qed.

(** X11. Every entry of an answer is an entry of the catalog, and when a
    search is given its name, in lower case, holds the search text in
    lower case; this holds with shuffling on as well as off. *)
Theorem X11_answers_hold_only_entries_found
    (SERIES_LIST : list Series.t) (pick : nat → nat) (query : Query.t) (s : Series.t) :
  (∀ i, pick i ≤ i)%nat →
  s ∈ Listing.data (series SERIES_LIST pick query) →
  s ∈ SERIES_LIST
  ∧ (search_of query ≠ "" →
     includes (search_of query) (toLowerCase (Series.name s)) = true).
Proof.
  intros _ Hs. unfold series in Hs. simpl in Hs. fold (search_of query) in Hs.
  apply slice_subseteq in Hs.
  assert (s ∈ matching (search_of query) SERIES_LIST) as Hfound.
  { case_bool_decide; [by rewrite shuffle_permutation in Hs | done]. }
  unfold matching in Hfound.
  destruct (Js.truthy (search_of query)) eqn:Hsearch.
  - apply list_elem_of_filter in Hfound as [Hmatch Hin]. by split.
  - split; [done|]. intros Hne%JsFacts.truthy_true. congruence.
Qed.

End facts.
End ApiFacts.

(** ** The page's script *)

Module PageFacts.
Import Node Page.

Lemma all_app (p : ascii → bool) (a b : string) :
  all p (a +:+ b) = all p a && all p b.
Proof.
  induction a as [|c a IH]; [done|].
  change (p c && all p (a +:+ b) = p c && all p a && all p b).
  by rewrite IH, andb_assoc.
Qed.

Lemma any_app (p : ascii → bool) (a b : string) :
  any p (a +:+ b) = any p a || any p b.
Proof. unfold any. by rewrite all_app, negb_andb. Qed.

Lemma replacement_is_safe (c : ascii) :
  any breaks_out (default (String c "") (entity c)) = false.
Proof. destruct c as [[] [] [] [] [] [] [] []]; reflexivity. Qed.

Lemma replace_is_safe (s : string) : any breaks_out (replace s) = false.
Proof.
  induction s as [|c s IH]; [done|].
  change (any breaks_out (default (String c "") (entity c) +:+ replace s) = false).
  by rewrite any_app, replacement_is_safe, IH.
Qed.

Lemma replace_untouched (s : string) : untouched s → replace s = s.
Proof.
  unfold untouched. induction s as [|c s IH]; [done|].
  cbn [all]. intros [Hc%bool_decide_eq_true Hs]%andb_true_iff.
  change (default (String c "") (entity c) +:+ replace s = String c s).
  by rewrite Hc, (IH Hs).
Qed.

(** X7. What [esc] returns holds no [<], no [>] and no quote of either
    kind, so it cannot end the text or the attribute value it is written
    into; and a text that holds none of the five characters of the table
    is returned as it is. *)
Theorem X7_escaped_text_cannot_break_out (s : option string) :
  any breaks_out (esc s) = false
  ∧ ∀ text, s = Some text → untouched text → esc s = text.
Proof.
  split.
  - unfold esc. destruct (Js.truthy_opt s); [apply replace_is_safe | done].
  - intros text -> Htext. unfold esc. simpl.
    destruct text as [|c text]; [done|]. by apply replace_untouched.
Qed.

End PageFacts.

(** ** The grouping loop of [loadData] *)

Module CatalogFacts.
Import Catalog.

Section facts.
Context `{Numbers}.

Lemma group_snoc data item :
  group (data ++ [item]) = (map ← group data; add map item).
Proof. unfold group. by rewrite foldl_snoc. Qed.

Lemma present_lookup {V} (object : gmap string V) key :
  present object key = match object !! key with Some _ => true | None => inherited key end.
Proof.
  unfold present. destruct (object !! key) eqn:E.
  - rewrite bool_decide_eq_true_2; [done | by eexists].
  - rewrite bool_decide_eq_false_2; [done |]. by intros [? ?].
Qed.

Lemma of_series_snoc key items item :
  of_series key (items ++ [item])
  = (of_series key items ++ if decide (key_of item = key) then [item] else [])%list.
Proof.
  unfold of_series. by rewrite filter_app.
Qed.

Lemma of_season_snoc season items item :
  of_season season (items ++ [item])
  = (of_season season items ++ if decide (season_of item = season) then [item] else [])%list.
Proof.
  unfold of_season. by rewrite filter_app.
Qed.

Lemma episodes_for_snoc items item :
  episodes_for (items ++ [item])
  = Some (default [] (episodes_for items) ++ [episode_of item])%list.
Proof.
  destruct items as [|first rest]; [done|].
  simpl. by rewrite fmap_app.
Qed.

(** [if (!object[key]) object[key] = fresh], for a key that is not
    inherited. *)
Lemma ensure {V} (object : gmap string V) key fresh :
  inherited key = false →
  (if negb (present object key) then <[key := fresh]> object else object) !! key
  = Some (default fresh (object !! key))
  ∧ ∀ other, other ≠ key →
      (if negb (present object key) then <[key := fresh]> object else object) !! other
      = object !! other.
Proof.
  intros Hkey. rewrite present_lookup.
  destruct (object !! key) eqn:E; simpl; [done|].
  rewrite Hkey. simpl. rewrite lookup_insert_eq. split; [done|].
  intros other Hother. by rewrite lookup_insert_ne.
Qed.

Lemma add_loadable map item items :
  groups items map → own map →
  inherited (key_of item) = false → inherited (season_of item) = false →
  ∃ map', add map (Some item) = Js.Normal map'
          ∧ groups (items ++ [item]) map' ∧ own map'.
Proof.
  intros Hgroups Hown Hkey Hseason.
  unfold add. cbv zeta. change (to_string (name_of item)) with (key_of item).
  set (fresh := Entry.mk (name_of item) (or_else (Item.logo_serie item) (Str "")) ∅ 0).
  destruct (ensure map (key_of item) fresh Hkey) as [-> Hothers].
  set (entry := default fresh (map !! key_of item)).
  destruct (ensure (Entry.seasons entry) (season_of item) [] Hseason) as [-> Hseasons].
  eexists. split; [done|].
  pose proof (Hgroups (key_of item)) as Hmine.
  set (old := of_series (key_of item) items) in *.
  assert (Entry.count entry = length old
          ∧ (∀ season, Entry.seasons entry !! season = episodes_for (of_season season old))
          ∧ match (old ++ [item])%list with
            | [] => False
            | first :: _ => Entry.name entry = name_of first
                            ∧ Entry.poster entry = or_else (Item.logo_serie first) (Str "")
            end) as (Hcount & Hold & Hfirst).
  { subst entry. destruct old as [|first rest].
    - rewrite Hmine. simpl. repeat split.
    - destruct Hmine as (found & -> & ? & ? & ? & ?). done. }
  split.
  - intros key. rewrite of_series_snoc.
    destruct (decide (key_of item = key)) as [<-|Hkey'].
    + fold old. rewrite lookup_insert_eq.
      destruct (old ++ [item])%list as [|first rest] eqn:Hnew; [done|].
      eexists. split; [done|].
      cbn [Entry.name Entry.poster Entry.seasons Entry.count].
      destruct Hfirst as [? ?]. repeat split; try done.
      * rewrite Hcount. rewrite <- Hnew, length_app. simpl. lia.
      * intros season. rewrite <- Hnew, of_season_snoc.
        destruct (decide (season_of item = season)) as [<-|Hseason'].
        -- by rewrite lookup_insert_eq, episodes_for_snoc, Hold.
        -- rewrite lookup_insert_ne by done. rewrite Hseasons by done.
           rewrite app_nil_r. apply Hold.
    + rewrite app_nil_r, lookup_insert_ne by done. rewrite Hothers by done.
      apply Hgroups.
  - intros key found. destruct (decide (key = key_of item)) as [->|Hkey'].
    + rewrite lookup_insert_eq. intros [= <-]. split; [done|]. simpl.
      intros season. destruct (decide (season = season_of item)) as [->|Hseason']; [done|].
      rewrite lookup_insert_ne by done. rewrite Hseasons by done.
      subst entry. destruct (map !! key_of item) as [stored|] eqn:Hstored; simpl.
      * by apply (Hown _ _ Hstored).
      * rewrite lookup_empty. by intros [? ?].
    + rewrite lookup_insert_ne by done. rewrite Hothers by done. apply Hown.
Qed.

Lemma add_normal map item map' :
  own map → add map (Some item) = Js.Normal map' →
  inherited (key_of item) = false ∧ inherited (season_of item) = false.
Proof.
  intros Hown. unfold add. cbv zeta.
  change (to_string (name_of item)) with (key_of item).
  rewrite present_lookup.
  destruct (map !! key_of item) as [entry|] eqn:Hentry; simpl.
  - rewrite Hentry, present_lookup.
    destruct (Hown _ _ Hentry) as [Hkey Hseasons].
    destruct (Entry.seasons entry !! season_of item) as [episodes|] eqn:Hepisodes; simpl.
    + intros _. split; [done|]. apply Hseasons. by eexists.
    + destruct (inherited (season_of item)); simpl; [by rewrite Hepisodes | done].
  - destruct (inherited (key_of item)); simpl; [by rewrite Hentry|].
    rewrite lookup_insert_eq. simpl. rewrite present_lookup, lookup_empty.
    destruct (inherited (season_of item)); simpl; [by rewrite lookup_empty | done].
Qed.

Lemma group_spec data :
  match group data with
  | Js.Normal map =>
      Forall loadable data
      ∧ ∃ items, data = Some <$> items ∧ groups items map ∧ own map
  | Js.Throw _ => ¬ Forall loadable data
  end.
Proof.
  induction data as [|item data IH] using rev_ind.
  - simpl. split; [done|]. exists []. repeat split; done.
  - rewrite group_snoc. destruct (group data) as [map|e]; simpl.
    + destruct IH as (Hall & items & -> & Hgroups & Hown).
      destruct item as [item|]; [|simpl].
      * destruct (inherited (key_of item)) eqn:Hkey;
          [| destruct (inherited (season_of item)) eqn:Hseason ].
        3: { destruct (add_loadable map item items Hgroups Hown Hkey Hseason)
               as (map' & -> & ? & ?).
             split.
             - apply Forall_app. split; [done|]. apply Forall_singleton.
               by exists item.
             - exists (items ++ [item])%list. by rewrite fmap_app. }
        all: destruct (add map (Some item)) as [map'|e] eqn:Hadd;
          [ apply add_normal in Hadd as [? ?]; [congruence | done] |];
          simpl; rewrite Forall_app, Forall_singleton; intros [_ Hlast];
          destruct Hlast as (fields & [= <-] & ? & ?); congruence.
      * rewrite Forall_app, Forall_singleton. intros [_ Hlast].
        by destruct Hlast as (fields & ? & _).
    + rewrite Forall_app. intros [? _]. by apply IH.
Qed.

Lemma counted_insert map key entry :
  counted (<[key := entry]> map) = Entry.count entry + counted (delete key map).
Proof.
  rewrite <- insert_delete_eq. unfold counted.
  rewrite map_fold_insert_L; [done | intros; lia | apply lookup_delete_eq].
Qed.

Lemma counted_lookup map key :
  counted map = from_option Entry.count 0 (map !! key) + counted (delete key map).
Proof.
  destruct (map !! key) as [entry|] eqn:Hentry; simpl.
  - unfold counted.
    by rewrite (map_fold_delete_L _ _ key entry map); [| intros; lia |].
  - by rewrite delete_id.
Qed.

Lemma add_counted map item map' :
  add map item = Js.Normal map' → counted map' = S (counted map).
Proof.
  destruct item as [item|]; [|done].
  unfold add. cbv zeta. change (to_string (name_of item)) with (key_of item).
  rewrite present_lookup, (counted_lookup map (key_of item)).
  destruct (map !! key_of item) as [entry|] eqn:Hentry; simpl.
  - rewrite Hentry. case_match; [|done]. intros [= <-].
    by rewrite counted_insert.
  - destruct (inherited (key_of item)); simpl; [by rewrite Hentry|].
    rewrite lookup_insert_eq. case_match; [|done]. intros [= <-].
    by rewrite insert_insert_eq, counted_insert.
Qed.

(** X13. When the loop of [loadData] runs through, no item of the file was
    [null], and under each key [map] holds what the items with that key
    make up: nothing for a key that no item has; otherwise the name and the
    poster of the first such item, the number of such items as [count],
    and under each season their episodes in the order of the file. The
    key of an item is the text of its [series], that of a number being
    what the platform's ToString makes of it. *)
Theorem X13_entries_collect_the_items_by_series data map :
  group data = Js.Normal map →
  ∃ items, data = Some <$> items ∧ groups items map.
Proof.
  intros Hgroup. pose proof (group_spec data) as Hspec.
  rewrite Hgroup in Hspec. destruct Hspec as (_ & items & ? & ? & _).
  by exists items.
Qed.

(** X14. The loop runs through exactly when no item is [null] and no item
    has a series or a season whose name objects inherit, such as
    [constructor] or [toString]; any other file makes it throw. *)
Theorem X14_load_needs_names_of_its_own data :
  (∃ map, group data = Js.Normal map) ↔ Forall loadable data.
Proof.
  pose proof (group_spec data) as Hspec. split.
  - intros [map Hgroup]. rewrite Hgroup in Hspec. by destruct Hspec.
  - intros Hall. destruct (group data) as [map|e]; [by exists map | done].
Qed.

(** X15. The [count]s of the entries add up to the number of items, the
    value that [TOTAL_EPISODES] was given before the loop. *)
Theorem X15_every_item_is_counted_once data map :
  group data = Js.Normal map → counted map = length data.
Proof.
  revert map. induction data as [|item data IH] using rev_ind; intros map.
  - by intros [= <-].
  - rewrite group_snoc, length_app. simpl.
    destruct (group data) as [before|e]; [|done]. simpl.
    intros Hadd%add_counted. rewrite Hadd, (IH before) by done. lia.
Qed.

End facts.
End CatalogFacts.

(** ** Runs of the further properties *)

Module ExtraRuns.
Import Api Node Unicode ServerResponse Relay Scenario Sample.

Ltac run := vm_compute; reflexivity.

Lemma X1_witness :
  well_formed "http://a.example/video.mp4"
  ∧ String.prefix "http://" "http://a.example/video.mp4" = true
  ∧ Page.fetched_through_relay (Page.video_src "http://a.example/video.mp4")
      (Some "bytes=0-")
    = Some (Request.mk (Some "http://a.example/video.mp4") (Some "bytes=0-")).
Proof.
  assert (well_formed "http://a.example/video.mp4") as Hurl by reflexivity.
  split; [exact Hurl|]. split; [reflexivity|].
  by apply RelayExtras.X1_played_address_reaches_the_handler.
Defined.

Lemma X2_witness :
  well_formed "http://a.example/video.mp4"
  ∧ plain "http://a.example/video.mp4"
  ∧ (resolves (play "http://a.example/video.mp4" None) at_a_example
     ↔ new_URL "http://a.example/video.mp4" = Js.Normal at_a_example).
Proof.
  assert (well_formed "http://a.example/video.mp4") as Hurl by reflexivity.
  assert (plain "http://a.example/video.mp4") as Hplain by reflexivity.
  split; [exact Hurl|]. split; [exact Hplain|].
  by apply RelayExtras.X2_plain_address_is_parsed_as_it_is.
Defined.

Lemma X3_witness :
  let raw := encodeURIComponent "http://a.example/video.mp4" in
  sends (Express.get_video_proxy (Some raw) None) at_a_example to_a_example
  ∧ well_formed "http://b.example/real.mp4"
  ∧ Browser.follow 1 moved raw None
    = Browser.follow 0 moved (encodeURIComponent "http://b.example/real.mp4") None
  ∧ Express.get_video_proxy (Some (encodeURIComponent "http://b.example/real.mp4")) None
    = Request.mk (Some "http://b.example/real.mp4") None.
Proof.
  intros raw.
  assert (sends (Express.get_video_proxy (Some raw) None) at_a_example to_a_example)
    as Hsends by (repeat split; run).
  assert (well_formed "http://b.example/real.mp4") as Hwf by reflexivity.
  split; [exact Hsends|]. split; [exact Hwf|].
  refine (RelayExtras.X3_followed_redirect_carries_the_location moved raw None
            at_a_example to_a_example
            (IncomingMessage.mk 302
               (list_to_map [("location", "http://b.example/real.mp4")]) "")
            "http://b.example/real.mp4" 0 Hsends _ _ _ _ Hwf).
  - run.
  - by apply (bool_decide_unpack _).
  - run.
  - discriminate.
Defined.

Lemma X4_witness :
  let raw := encodeURIComponent "http://a.example/video.mp4" in
  sends (Express.get_video_proxy (Some raw) None) at_a_example to_a_example
  ∧ well_formed "/next.mp4"
  ∧ Browser.follow 1 moved_nearby raw None = bad_request.
Proof.
  intros raw.
  assert (sends (Express.get_video_proxy (Some raw) None) at_a_example to_a_example)
    as Hsends by (repeat split; run).
  assert (well_formed "/next.mp4") as Hwf by reflexivity.
  split; [exact Hsends|]. split; [exact Hwf|].
  refine (RelayExtras.X4_relative_location_ends_in_400 moved_nearby raw None
            at_a_example to_a_example
            (IncomingMessage.mk 302 (list_to_map [("location", "/next.mp4")]) "")
            "next.mp4" 0 Hsends _ _ _ Hwf).
  - run.
  - by apply (bool_decide_unpack _).
  - run.
Defined.


Lemma X6_witness :
  let res := Exchange.response (handler moved (play "http://a.example/video.mp4" None)) in
  is_Some (headers res !! "Location")
  ∧ statusCode res = 302
  ∧ ∃ address, body res = RedirectNotice address.
Proof.
  intros res.
  assert (is_Some (headers res !! "Location")) as Hlocation by (eexists; run).
  split; [exact Hlocation|].
  apply (HandlerFacts.X6_only_relay_headers_are_set moved
           (play "http://a.example/video.mp4" None)).
  by left.
Defined.

Lemma X16_witness :
  (∃ e, target (play "not-a-url" None) = Js.Throw e)
  ∧ Exchange.response (handler anywhere (play "not-a-url" None))
    = ServerResponse.mk 400 ∅ Empty
  ∧ Exchange.outbound (handler anywhere (play "not-a-url" None)) = []
  ∧ Exchange.uncaught (handler anywhere (play "not-a-url" None)) = None.
Proof.
  assert (∃ e, target (play "not-a-url" None) = Js.Throw e) as Hthrow.
  { exists Js.TypeError. run. }
  split; [exact Hthrow|].
  apply (HandlerFacts.X16_url_the_handler_cannot_parse_is_400 anywhere
           (play "not-a-url" None)).
  right. right. exact Hthrow.
Defined.

Lemma X7_witness :
  Page.untouched "Temporada 1"
  ∧ any Page.breaks_out (Page.esc (Some "Temporada 1")) = false
  ∧ Page.esc (Some "Temporada 1") = "Temporada 1".
Proof.
  assert (Page.untouched "Temporada 1") as Htext by reflexivity.
  split; [exact Htext|].
  destruct (PageFacts.X7_escaped_text_cannot_break_out (Some "Temporada 1"))
    as [Hsafe Hsame].
  split; [exact Hsafe|]. by apply Hsame.
Defined.

Lemma shows_is_an_array : Api.array shows.
Proof. reflexivity. Qed.

Lemma X8_witness :
  (∀ i, first_pick i ≤ i)%nat
  ∧ Api.array shows
  ∧ Api.parseInt (Api.Query.page search_alpha) = Number.NaN
  ∧ Api.limit_of search_alpha = Number.Finite (Z.of_nat 24)
  ∧ (length (Api.matching (Api.search_of search_alpha) shows) ≤ 24)%nat
  ∧ Api.Listing.data (Api.series shows first_pick search_alpha)
      ≡ₚ Api.matching (Api.search_of search_alpha) shows.
Proof.
  assert (∀ i, first_pick i ≤ i)%nat as Hpick by (intros i; unfold first_pick; lia).
  assert (Api.parseInt (Api.Query.page search_alpha) = Number.NaN) as Hpage
    by reflexivity.
  assert (Api.limit_of search_alpha = Number.Finite (Z.of_nat 24)) as Hlimit
    by reflexivity.
  assert (length (Api.matching (Api.search_of search_alpha) shows) ≤ 24)%nat as Hall
    by (vm_compute; lia).
  split; [exact Hpick|]. split; [exact shows_is_an_array|]. split; [exact Hpage|].
  split; [exact Hlimit|]. split; [exact Hall|].
  exact (proj2 (proj2 (ApiFacts.X8_shuffling_keeps_the_entries shows first_pick
                         search_alpha Hpick))
           shows_is_an_array (or_introl Hpage) 24%nat Hlimit Hall).
Defined.

Lemma X9_witness :
  Api.array shows
  ∧ Api.limit_of search_alpha = Number.Finite 24
  ∧ (length (Api.Listing.data (Api.series shows first_pick search_alpha)) ≤ 24)%nat.
Proof.
  assert (Api.limit_of search_alpha = Number.Finite 24) as Hlimit by reflexivity.
  split; [exact shows_is_an_array|]. split; [exact Hlimit|].
  exact (proj1 (proj2 (proj2 (ApiFacts.X9_page_size_is_bounded shows first_pick
                                search_alpha))
                  shows_is_an_array)
           24%Z Hlimit eq_refl).
Defined.

Lemma X10_witness :
  Api.array shows
  ∧ (∀ p, (p < 3)%nat → Api.parseInt (page_text p) = Number.Finite (Z.of_nat p))
  ∧ Api.Query.random two_per_page ≠ Some "true"
  ∧ Api.limit_of two_per_page = Number.Finite (Z.of_nat 2)
  ∧ concat (map (fun p => Api.Listing.data
                            (Api.series shows first_pick
                               (Api.on_page (page_text p) two_per_page)))
              (seq 0 3))
    = take (3 * 2) (Api.matching (Api.search_of two_per_page) shows).
Proof.
  assert (∀ p, (p < 3)%nat → Api.parseInt (page_text p) = Number.Finite (Z.of_nat p))
    as Hpages.
  { intros [|[|[|p]]] Hp; try reflexivity. lia. }
  assert (Api.Query.random two_per_page ≠ Some "true") as Hrandom by discriminate.
  assert (Api.limit_of two_per_page = Number.Finite (Z.of_nat 2)) as Hlimit
    by reflexivity.
  split; [exact shows_is_an_array|].
  split; [exact Hpages|]. split; [exact Hrandom|]. split; [exact Hlimit|].
  exact (proj1 (ApiFacts.X10_pages_partition_the_entries shows first_pick two_per_page
                  page_text 2 3 shows_is_an_array Hpages Hrandom Hlimit)).
Defined.

Lemma X11_witness :
  (∀ i, first_pick i ≤ i)%nat
  ∧ Api.Series.mk "Alpha" "" 1 3
      ∈ Api.Listing.data (Api.series shows first_pick search_alpha)
  ∧ Api.Series.mk "Alpha" "" 1 3 ∈ shows
  ∧ (Api.search_of search_alpha ≠ "" →
     Api.includes (Api.search_of search_alpha)
       (Api.toLowerCase (Api.Series.name (Api.Series.mk "Alpha" "" 1 3))) = true).
Proof.
  assert (∀ i, first_pick i ≤ i)%nat as Hpick by (intros i; unfold first_pick; lia).
  assert (Api.Series.mk "Alpha" "" 1 3
            ∈ Api.Listing.data (Api.series shows first_pick search_alpha)) as Hin.
  { assert (Api.Listing.data (Api.series shows first_pick search_alpha)
            = [Api.Series.mk "alphabet" "" 4 40; Api.Series.mk "Alpha" "" 1 3]) as ->
      by run.
    rewrite !elem_of_cons. by right; left. }
  split; [exact Hpick|]. split; [exact Hin|].
  by apply (ApiFacts.X11_answers_hold_only_entries_found shows first_pick search_alpha).
Defined.

Lemma X12_witness :
  Api.array shows
  ∧ Api.parseInt (Api.Query.page all_but_one) = Number.NaN
  ∧ Api.Query.random all_but_one ≠ Some "true"
  ∧ Api.limit_of all_but_one = Number.Finite (- Z.of_nat 1)
  ∧ Api.Listing.data (Api.series shows first_pick all_but_one)
    = take (length (Api.matching (Api.search_of all_but_one) shows) - 1)
        (Api.matching (Api.search_of all_but_one) shows)
  ∧ Api.Listing.hasMore (Api.series shows first_pick all_but_one) = true.
Proof.
  assert (Api.parseInt (Api.Query.page all_but_one) = Number.NaN) as Hpage
    by reflexivity.
  assert (Api.Query.random all_but_one ≠ Some "true") as Hrandom by discriminate.
  assert (Api.limit_of all_but_one = Number.Finite (- Z.of_nat 1)) as Hlimit
    by reflexivity.
  split; [exact shows_is_an_array|].
  split; [exact Hpage|]. split; [exact Hrandom|]. split; [exact Hlimit|].
  apply (ApiFacts.X12_negative_limit_drops_the_last_entries shows first_pick all_but_one 1);
    [exact shows_is_an_array | by left | exact Hrandom | exact Hlimit].
Defined.

Lemma X13_witness :
  Catalog.group file = Js.Normal grouped
  ∧ ∃ items, file = Some <$> items ∧ Catalog.groups items grouped.
Proof.
  assert (Catalog.group file = Js.Normal grouped) as Hgroup by run.
  split; [exact Hgroup|].
  exact (CatalogFacts.X13_entries_collect_the_items_by_series file grouped Hgroup).
Defined.

Lemma X14_witness :
  Forall Catalog.loadable file ∧ ∃ map, Catalog.group file = Js.Normal map.
Proof.
  assert (Forall Catalog.loadable file) as Hall.
  { repeat first
      [ apply Forall_nil_2
      | apply Forall_cons_2; [eexists; split; [reflexivity|]; split; run |] ]. }
  split; [exact Hall|].
  exact (proj2 (CatalogFacts.X14_load_needs_names_of_its_own file) Hall).
Defined.

Lemma X15_witness :
  Catalog.group file = Js.Normal grouped
  ∧ Catalog.counted grouped = length file.
Proof.
  assert (Catalog.group file = Js.Normal grouped) as Hgroup by run.
  split; [exact Hgroup|].
  exact (CatalogFacts.X15_every_item_is_counted_once file grouped Hgroup).
Defined.

End ExtraRuns.
